(** * PostgresMuchos: a pooled query executor over generic-pool and pg

    Shallow embedding of [lib/postgres-muchos.js] (class [PostgresMuchos])
    and the properties its specification states about it.

    One call is followed from its start on the event loop to its settlement,
    if it ever settles: each answer of a collaborator (the pool, the driver, a
    timer) is an input of the call, together with what runs on the object
    while that answer is pending -- the callbacks of the pool, and the driver
    answering another call of [query] that is in flight.  The listeners
    registered on the object are part of its state; one that throws ends the
    callback of the event loop it was called from.

    Layout:
    - [Js]: the fragment of JavaScript values the class manipulates
      (truthiness, [typeof], property lookup on plain objects);
    - [Promise]: promise chains ([then], [catch]) as a state-and-rejection
      monad over the single-threaded event loop;
    - [PostgresMuchos]: the class itself, method by method;
    - the theorems. *)

From Stdlib Require Import ZArith Ascii String List Bool.
From stdpp Require Import base option gmap strings list fin_maps.

Local Open Scope Z_scope.

(* ===================================================================== *)
(** ** JavaScript values *)
(* ===================================================================== *)

Module Js.

(** A JavaScript value.  Numbers are the integers together with NaN, which
    is all the class ever inspects of a number (its truthiness); objects are
    known by their reference, so that [Object.is] on two objects is equality
    of references. *)
Inductive value : Type :=
| Undefined
| Null
| Bool (b : bool)
| Num (n : Z)
| NaN
| Str (s : string)
| Obj (ref : positive).

(** ToBoolean. *)
Definition truthy (v : value) : bool :=
  match v with
  | Undefined | Null | NaN => false
  | Bool b => b
  | Num n => negb (n =? 0)
  | Str s => negb (String.eqb s EmptyString)
  | Obj _ => true
  end.

(** The [typeof] operator. *)
Definition typeof (v : value) : string :=
  match v with
  | Undefined => "undefined"
  | Null => "object"
  | Bool _ => "boolean"
  | Num _ | NaN => "number"
  | Str _ => "string"
  | Obj _ => "object"
  end.

(** A plain object used as a record of options: [o.k] is [undefined] when
    the property is absent. *)
Definition get (o : gmap string value) (k : string) : value :=
  default Undefined (o !! k).

(** [s.replace(/c/g, r)] for a one-character pattern [c] and a replacement
    [r] without [$]: the subject is scanned from the left, every match is
    replaced and the scan resumes after the match. *)
Fixpoint replace_global (c : ascii) (r : string) (s : string) : string :=
  match s with
  | EmptyString => EmptyString
  | String a rest =>
      if Ascii.eqb a c then r +:+ replace_global c r rest
      else String a (replace_global c r rest)
  end.

(** [s.split(c)]: the pieces of [s] between the occurrences of [c]. *)
Fixpoint split_on (c : ascii) (s : string) : list string :=
  match s with
  | EmptyString => [EmptyString]
  | String a rest =>
      if Ascii.eqb a c then EmptyString :: split_on c rest
      else match split_on c rest with
           | piece :: pieces => String a piece :: pieces
           | [] => [String a EmptyString]
           end
  end.

(** Number of occurrences of [c] in [s]. *)
Fixpoint occurrences (c : ascii) (s : string) : nat :=
  match s with
  | EmptyString => 0%nat
  | String a rest =>
      ((if Ascii.eqb a c then 1 else 0) + occurrences c rest)%nat
  end.

End Js.

(* ===================================================================== *)
(** ** Promises *)
(* ===================================================================== *)

(** A promise chain on the single-threaded event loop, for one call: a
    computation that reads and writes the mutable state [S] it closes over,
    performs observable actions [W] (calls to the collaborators, emitted
    events, timers) in order, and settles fulfilled or rejected -- or stays
    pending for ever ([None]), when an exception leaves the callback of the
    event loop that was to settle it. *)
Module Promise.

Inductive settled (E A : Type) : Type :=
| Fulfilled (a : A)
| Rejected (e : E).
Arguments Fulfilled {E A} a.
Arguments Rejected {E A} e.

Section Chain.
Context {W S : Type}.

Definition t (E A : Type) : Type :=
  S -> option (settled E A) * S * list W.

Definition resolve {E A} (a : A) : t E A :=
  fun s => (Some (Fulfilled a), s, []).
Definition reject {E A} (e : E) : t E A :=
  fun s => (Some (Rejected e), s, []).
Definition settle {E A} (o : settled E A) : t E A :=
  fun s => (Some o, s, []).

(** An exception leaves a callback of the event loop: the rest of the
    callback does not run and what it was to settle stays pending. *)
Definition escape {E A} : t E A := fun s => (None, s, []).

(** [p.then(f)] *)
Definition then_ {E A B} (p : t E A) (f : A -> t E B) : t E B :=
  fun s =>
    match p s with
    | (Some (Fulfilled a), s1, w1) =>
        let '(o, s2, w2) := f a s1 in (o, s2, w1 ++ w2)
    | (Some (Rejected e), s1, w1) => (Some (Rejected e), s1, w1)
    | (None, s1, w1) => (None, s1, w1)
    end.

(** [p.catch(h)] *)
Definition catch_ {E E' A} (p : t E A) (h : E -> t E' A) : t E' A :=
  fun s =>
    match p s with
    | (Some (Fulfilled a), s1, w1) => (Some (Fulfilled a), s1, w1)
    | (Some (Rejected e), s1, w1) =>
        let '(o, s2, w2) := h e s1 in (o, s2, w1 ++ w2)
    | (None, s1, w1) => (None, s1, w1)
    end.

(** A promise whose settlement nobody observes: [p.then()], [p] with
    handlers that swallow both outcomes, or a chain that is started and left
    to itself. *)
Definition detached {E E' A} (p : t E A) : t E' unit :=
  fun s => let '(_, s1, w1) := p s in (Some (Fulfilled tt), s1, w1).

Definition tell {E} (w : W) : t E unit :=
  fun s => (Some (Fulfilled tt), s, [w]).
Definition read {E} : t E S := fun s => (Some (Fulfilled s), s, []).
Definition write {E} (s : S) : t E unit :=
  fun _ => (Some (Fulfilled tt), s, []).

(** [cond && effect] used as a statement. *)
Definition when {E} (cond : bool) (p : t E unit) : t E unit :=
  if cond then p else resolve tt.

End Chain.

(** [new Promise((resolve, reject) => body)] where the body starts a chain
    whose handlers call [resolve] or [reject] of the new promise.  The frame
    holds the [let] variables of the body, shared by its closures, and the
    settlement of the new promise: the first call of [resolve] or [reject]
    settles it, later calls do nothing.  When the body itself throws, the new
    promise is rejected with what was thrown. *)
Section NewPromise.
Context {W S L E A : Type}.

Record frame : Type := Frame {
  vars : L;
  settlement : option (settled E A)
}.

Variable announce : settled E A -> W.

Definition settle_outer {E'} (o : settled E A) : @t W (frame * S) E' unit :=
  fun '(fr, s) =>
    match settlement fr with
    | None =>
        (Some (Fulfilled tt), (Frame (vars fr) (Some o), s), [announce o])
    | Some _ => (Some (Fulfilled tt), (fr, s), [])
    end.

Definition resolve_outer {E'} (a : A) : @t W (frame * S) E' unit :=
  settle_outer (Fulfilled a).
Definition reject_outer {E'} (e : E) : @t W (frame * S) E' unit :=
  settle_outer (Rejected e).

Definition get_var {E'} : @t W (frame * S) E' L :=
  fun '(fr, s) => (Some (Fulfilled (vars fr)), (fr, s), []).
Definition set_var {E'} (l : L) : @t W (frame * S) E' unit :=
  fun '(fr, s) => (Some (Fulfilled tt), (Frame l (settlement fr), s), []).

(** A chain over the object state, run inside the body. *)
Definition lift {E' B} (p : @t W S E' B) : @t W (frame * S) E' B :=
  fun '(fr, s) => let '(o, s1, w) := p s in (o, (fr, s1), w).

(** The new promise: [None] when nothing ever settles it.  [thrown] is the
    reason it is rejected with when the body throws. *)
Definition make {E'} (init : L) (thrown : E' -> E)
    (body : @t W (frame * S) E' unit)
  : S -> option (settled E A) * S * list W :=
  fun s =>
    let '(_, (fr, s1), w) :=
      catch_ body (fun e => reject_outer (E' := E') (thrown e))
        (Frame init None, s) in
    (settlement fr, s1, w).
End NewPromise.

Declare Scope promise_scope.
Delimit Scope promise_scope with promise.
Notation "p >>= f" := (then_ p f)
  (at level 50, left associativity) : promise_scope.
Notation "p >>? h" := (catch_ p h)
  (at level 50, left associativity) : promise_scope.
Notation "x <- p ;; k" := (then_ p (fun x => k))
  (at level 100, p at next level, right associativity) : promise_scope.
Notation "p ;; k" := (then_ p (fun _ => k))
  (at level 100, right associativity) : promise_scope.

End Promise.

(* ===================================================================== *)
(** ** The class *)
(* ===================================================================== *)

Module PostgresMuchos.
Import Js Promise.
Local Open Scope promise_scope.

(** *** Collaborators: the pg driver *)

(** A [pg.Client]: an object (its reference) with the [processID] of its
    backend. *)
Record Client : Type := { client_ref : positive; processID : Z }.

(** An [Error] object, as the driver and the pool hand them over. *)
Record JsError : Type := { message : string }.

(** The result object of [client.query]. *)
Record Results : Type := {
  command : string;
  rowCount : Z;
  fields : list value;
  rows : list value
}.

(** *** Events of the class (it is an [EventEmitter]) *)

Inductive Event : Type :=
| EvConnect (pid : Z)
| EvDisconnect (pid : Z)
| EvQuery (sql : string) (parms : list value) (pid : Z)
| EvResults (elapsedTime : Z) (sql : string) (parms : list value)
    (data : list value) (pid : Z).

(** The name an event is emitted under; [emitControl] gates it under the
    same name. *)
Definition event_name (e : Event) : string :=
  match e with
  | EvConnect _ => "connect"
  | EvDisconnect _ => "disconnect"
  | EvQuery _ _ _ => "query"
  | EvResults _ _ _ _ _ => "results"
  end.

(** What the promise of [query] is rejected with: the message built by its
    failure handler, or an [Error] thrown inside its body. *)
Inductive reason : Type :=
| Message (m : string)
| Raised (err : JsError).

(** *** What the class does to the outside, in order *)

Inductive action : Type :=
| PoolAcquire (priority : Z)
| PoolRelease (client : option Client)
| PoolDrain
| PoolClear
| DriverConnect (config : gmap string value) (client : Client)
| DriverQuery (client : Client) (sql : string) (parms : list value)
| DriverEnd (client : Client)
| SetTimeout (ms : Z)
| TimerFired (ms : Z)
| Emit (e : Event)
| QuerySettled (o : settled reason Results)
| CloseSettled (o : settled JsError unit).

(** *** The object *)

(** The pool returned by [GenericPool.createPool(factory, poolConfig)]; the
    factory is the closure of [createFactory] over [dbConfig]. *)
Record Pool : Type := {
  factory_config : gmap string value;
  pool_config : gmap string value
}.

(** The fields of [this].  [_onErrorMessage] is [null] ([None]) or the
    message stored by the [factoryCreateError] listener.  [_events] is the
    listener table of the [EventEmitter] the class extends, as far as the
    class depends on it: whether a listener registered for the event throws
    when it is handed the event. *)
Record Executor : Type := {
  _onErrorMessage : option string;
  _emitControl : gmap string value;
  _FACTORY_CREATION_WAIT_PERIOD : Z;
  _pool : Pool;
  _events : Event -> bool
}.

Definition set_onErrorMessage (m : option string) (this : Executor)
  : Executor :=
  {| _onErrorMessage := m;
     _emitControl := _emitControl this;
     _FACTORY_CREATION_WAIT_PERIOD := _FACTORY_CREATION_WAIT_PERIOD this;
     _pool := _pool this;
     _events := _events this |}.

(** [this.on(name, listener)], inherited from [EventEmitter]: [listener]
    tells on which events the new listener throws. *)
Definition on (name : string) (listener : Event -> bool) (this : Executor)
  : Executor :=
  {| _onErrorMessage := _onErrorMessage this;
     _emitControl := _emitControl this;
     _FACTORY_CREATION_WAIT_PERIOD := _FACTORY_CREATION_WAIT_PERIOD this;
     _pool := _pool this;
     _events := fun e =>
       _events this e || (String.eqb (event_name e) name && listener e) |}.

(** Chains over the fields of [this]. *)
Abbreviation chain := (@Promise.t action Executor).

(** [this.emit(name, payload)]: the event is handed to the listeners, one
    after the other; when one of them throws, [emit] throws.  The class only
    emits from inside callbacks of the driver, so the exception leaves the
    callback. *)
Definition emit {E} (e : Event) : chain E unit :=
  tell (Emit e) ;;
  this <- read ;;
  if _events this e then escape else resolve tt.

(** *** [createFactory (config)] *)

(** [create]: the answer of [client.connect] is [err]. *)
Definition create (config : gmap string value)
    (client : Client) (err : option JsError) : chain string Client :=
  tell (DriverConnect config client) ;;
  match err with
  | Some err => reject (message err)
  | None =>
      that <- read ;;
      when (truthy (get (_emitControl that) "connect"))
        (emit (EvConnect (processID client))) ;;
      resolve client
  end.

(** [validate]: the answer of [client.query('select 1', [], ...)] is [err]. *)
Definition validate (client : Client) (err : option JsError)
  : chain bool bool :=
  tell (DriverQuery client "select 1" []) ;;
  match err with
  | Some _ => reject false
  | None => resolve true
  end.

(** [destroy]: the answer of [client.end] is [err]. *)
Definition destroy (client : Client) (err : option JsError)
  : chain JsError unit :=
  tell (DriverEnd client) ;;
  match err with
  | Some err => reject err
  | None =>
      that <- read ;;
      when (truthy (get (_emitControl that) "disconnect"))
        (emit (EvDisconnect (processID client))) ;;
      resolve tt
  end.

(** The listener of the pool's [factoryCreateError] event, registered by
    the constructor:  [err && (this._onErrorMessage = err)].  The pool
    passes what [create] rejected with, a message string. *)
Definition on_factoryCreateError {E} (err : string) : chain E unit :=
  this <- read ;;
  when (truthy (Str err)) (write (set_onErrorMessage (Some err) this)).

(** *** Collaborators: the pool *)

(** What the pool may run of this class while one of its operations (or the
    driver, or a timer) is pending: the factory's functions, with the
    driver's answer to each, and the [factoryCreateError] listener. *)
Inductive callback : Type :=
| FactoryCreate (client : Client) (err : option JsError)
| FactoryValidate (client : Client) (err : option JsError)
| FactoryDestroy (client : Client) (err : option JsError)
| FactoryCreateError (err : string).

Definition run_callback {E} (cb : callback) : chain E unit :=
  match cb with
  | FactoryCreate client err =>
      this <- read ;;
      detached (create (factory_config (_pool this)) client err)
  | FactoryValidate client err => detached (validate client err)
  | FactoryDestroy client err => detached (destroy client err)
  | FactoryCreateError err => on_factoryCreateError err
  end.

Fixpoint run_callbacks {E} (cbs : list callback) : chain E unit :=
  match cbs with
  | [] => resolve tt
  | cb :: cbs => run_callback cb ;; run_callbacks cbs
  end.

(** What runs on the object while a call waits for a collaborator: a
    callback of the pool, or the driver answering, with results, another call
    of [query] that is in flight.  Of that other call only the write of its
    callback to the shared field is seen here, [that._onErrorMessage = null];
    its events, its release and its settlement are in its own trace. *)
Inductive interleaved : Type :=
| ByPool (cb : callback)
| QuerySucceeded.

Definition run_one {E} (i : interleaved) : chain E unit :=
  match i with
  | ByPool cb => run_callback cb
  | QuerySucceeded =>
      that <- read ;;
      write (set_onErrorMessage None that)
  end.

Fixpoint run_interleaved {E} (l : list interleaved) : chain E unit :=
  match l with
  | [] => resolve tt
  | i :: l => run_one i ;; run_interleaved l
  end.

(** The answer of a collaborator to one asynchronous call: what runs while
    it is pending, then its settlement. *)
Record response (E A : Type) : Type := {
  during : list interleaved;
  outcome : settled E A
}.
Arguments during {E A} r.
Arguments outcome {E A} r.

Definition await {E A} (r : response E A) : chain E A :=
  run_interleaved (during r) ;; settle (outcome r).

(** How the pool refuses a client: the promise returned by [acquire]
    rejects, or the call of [acquire] itself throws before there is a promise
    (and then nothing runs meanwhile). *)
Inductive refusal : Type :=
| Rejects (err : JsError)
| Throws (err : JsError).

(** [this._pool.acquire(priority)]: the call throws, or returns a promise. *)
Definition pool_acquire (priority : Z) (r : response refusal Client)
  : chain JsError (chain JsError Client) :=
  tell (PoolAcquire priority) ;;
  match outcome r with
  | Rejected (Throws err) => reject err
  | Rejected (Rejects err) =>
      resolve (run_interleaved (during r) ;; reject err)
  | Fulfilled client =>
      resolve (run_interleaved (during r) ;; resolve client)
  end.

(** [this._pool.release(client)]: the call returns at once with a promise
    that settles later as [o]; what the pool runs after the release is not
    part of the call. *)
Definition pool_release (client : option Client) (o : settled JsError unit)
  : chain JsError unit :=
  tell (PoolRelease client) ;; settle o.

(** [this._pool.drain()] *)
Definition pool_drain (r : response JsError unit) : chain JsError unit :=
  tell PoolDrain ;; await r.

(** [this._pool.clear()] *)
Definition pool_clear (r : response JsError unit) : chain JsError unit :=
  tell PoolClear ;; await r.

(** *** [_query (client, sql, parms)] *)

(** The driver's answer to [client.query(sql, parms, ...)]: the two clock
    readings ([new Date().getTime()] before the call and in its callback),
    the callbacks of the pool that run meanwhile, and [err] or [results]. *)
Record execution : Type := {
  started : Z;
  finished : Z;
  meanwhile : list interleaved;
  answer : JsError + Results
}.

Definition _query (client : Client) (sql : string) (parms : list value)
    (x : execution) : chain JsError Results :=
  let start := started x in
  tell (DriverQuery client sql parms) ;;
  run_interleaved (meanwhile x) ;;
  match answer x with
  | inl err => reject err
  | inr results =>
      that <- read ;;
      write (set_onErrorMessage None that) ;;
      when (truthy (get (_emitControl that) "query"))
        (emit (EvQuery sql parms (processID client))) ;;
      when (truthy (get (_emitControl that) "results"))
        (let elapsedTime := finished x - start in
         emit (EvResults elapsedTime sql parms (rows results)
                 (processID client))) ;;
      resolve results
  end.

(** *** [query (sql, parms = [])] *)

(** The answers of the collaborators to one call of [query]. *)
Record query_world : Type := {
  acquired : response refusal Client;
  executed : execution;
  released : settled JsError unit
}.

Abbreviation query_chain :=
  (@Promise.t action (@frame (option Client) reason Results * Executor)).

(** The template literal of the rejection:
    [`${err.message}: ${this._onErrorMessage ? this._onErrorMessage : ''}`] *)
Definition rejection (err : JsError) (this : Executor) : string :=
  message err +:+ ": " +:+
  match _onErrorMessage this with
  | Some m => if truthy (Str m) then m else EmptyString
  | None => EmptyString
  end.

Definition query (sql : string) (parms : option (list value))
    (w : query_world)
  : Executor -> option (settled reason Results) * Executor * list action :=
  let parms := default [] parms in
  let body : query_chain JsError unit :=
     (promise <- lift (pool_acquire 0 (acquired w)) ;;
      detached
        (lift promise
         >>= (fun clientParm =>
                set_var (Some clientParm) ;;
                lift (_query clientParm sql parms (executed w)))
         >>= (fun results =>
                client <- get_var ;;
                lift (detached (E' := JsError)
                        (pool_release client (released w))) ;;
                resolve_outer QuerySettled results)
         >>? (fun err =>
                client <- get_var ;;
                lift (detached (E' := JsError)
                        (pool_release client (released w))) ;;
                this <- lift read ;;
                reject_outer (E' := JsError) QuerySettled
                  (Message (rejection err this))))) in
  make QuerySettled (* let client = null *) None Raised body.

(** *** [waitFunction (timeout)] and [close ()] *)

(** The timer is set, the event loop goes on, the timer fires and its
    callback resolves. *)
Definition waitFunction (timeout : Z) (meanwhile : list interleaved)
  : chain JsError unit :=
  tell (SetTimeout timeout) ;;
  run_interleaved meanwhile ;;
  tell (TimerFired timeout).

(** The answers of the collaborators to one call of [close]:
    [pending] is [this._pool._factoryCreateOperations.size], or [None] when
    the pool has no such property. *)
Record close_world : Type := {
  pending : option nat;
  waited : list interleaved;
  drained : response JsError unit;
  cleared : response JsError unit
}.

Abbreviation close_chain :=
  (@Promise.t action (@frame unit JsError unit * Executor)).

Definition close (w : close_world)
  : Executor -> option (settled JsError unit) * Executor * list action :=
  fun this =>
  let timeout := 0 in
  let timeout :=
    match pending w with
    | Some size =>
        if (0 <? size)%nat then _FACTORY_CREATION_WAIT_PERIOD this else timeout
    | None => timeout
    end in
  let body : close_chain JsError unit :=
    detached
      (lift (waitFunction timeout (waited w))
       >>= (fun _ => lift (pool_drain (drained w)))
       >>= (fun _ => lift (pool_clear (cleared w)))
       >>= (fun _ => resolve_outer CloseSettled tt)
       >>? (fun err => reject_outer (E' := JsError) CloseSettled err)) in
  make CloseSettled tt id body this.

(** *** [constructor (dbConfig, poolConfig, emitControl = {})] *)

Definition createPool (factory poolConfig : gmap string value) : Pool :=
  {| factory_config := factory; pool_config := poolConfig |}.

Definition constructor (dbConfig poolConfig : gmap string value)
    (emitControl : option (gmap string value)) : Executor :=
  let emitControl := default ∅ emitControl in
  let factory := dbConfig in
  let poolConfig :=
    if negb (truthy (get poolConfig "acquireTimeoutMillis"))
    then <["acquireTimeoutMillis" := Num 1000]> poolConfig
    else poolConfig in
  {| _onErrorMessage := None;
     _emitControl := emitControl;
     _FACTORY_CREATION_WAIT_PERIOD := 500;
     _pool := createPool factory poolConfig;
     _events := fun _ => false |}.

(** *** The static escape helpers *)

Definition double_quote : ascii := "034"%char.
Definition single_quote : ascii := "039"%char.
Definition backslash : ascii := "092"%char.

(** [source.replace(...)] is only reached on a string. *)
Definition replace_method (source : value) (c : ascii) (r : string) : value :=
  match source with
  | Str s => Str (replace_global c r s)
  | _ => source
  end.

(** [(typeof source === 'string') ? source.replace(..., ...) : source],
    every double quote replaced by a backslash and a double quote. *)
Definition escapeDoubleQuotes (source : value) : value :=
  if String.eqb (typeof source) "string"
  then replace_method source double_quote
         (String backslash (String double_quote EmptyString))
  else source.

(** [(typeof source === 'string') ? source.replace(..., ...) : source],
    every single quote replaced by two single quotes. *)
Definition escapeSingleQuotes (source : value) : value :=
  if String.eqb (typeof source) "string"
  then replace_method source single_quote
         (String single_quote (String single_quote EmptyString))
  else source.

(** The composite message as the specification words it: the message of
    the error followed by the stored factory error, or by nothing. *)
Definition claimed_rejection (err : JsError) (this : Executor) : string :=
  message err +:+ default EmptyString (_onErrorMessage this).

(** Replacing every occurrence of [c] by [r], as the specification words
    it: the pieces between the occurrences, joined by [r]. *)
Definition replace_every (c : ascii) (r : string) (s : string) : string :=
  String.concat r (split_on c s).

(** *** [get pool ()] *)

Definition pool (this : Executor) : Pool := _pool this.

(** *** Sequences of operations on one object *)

(** What can happen to an object once it is built: a call of one of its
    methods, with the answers of the collaborators, or a callback of the
    pool. *)
Inductive operation : Type :=
| Query (sql : string) (parms : option (list value)) (w : query_world)
| Close (w : close_world)
| Wait (timeout : Z) (meanwhile : list interleaved)
| GetPool
| On (name : string) (listener : Event -> bool)
| Callback (cb : callback).

Definition perform (op : operation) (this : Executor)
  : Executor * list action :=
  match op with
  | Query sql parms w =>
      let '(_, this', t) := query sql parms w this in (this', t)
  | Close w =>
      let '(_, this', t) := close w this in (this', t)
  | Wait timeout meanwhile =>
      let '(_, this', t) := waitFunction timeout meanwhile this in (this', t)
  | GetPool =>
      let _ := pool this in (this, [])
  | On name listener => (on name listener this, [])
  | Callback cb =>
      let '(_, this', t) := run_callback (E := JsError) cb this in (this', t)
  end.

Fixpoint run (ops : list operation) (this : Executor)
  : Executor * list action :=
  match ops with
  | [] => (this, [])
  | op :: ops =>
      let '(this1, t1) := perform op this in
      let '(this2, t2) := run ops this1 in
      (this2, t1 ++ t2)
  end.

(** *** Reading traces *)

Definition is_pool_call (a : action) : bool :=
  match a with
  | PoolAcquire _ | PoolRelease _ | PoolDrain | PoolClear => true
  | _ => false
  end.

Definition is_release (a : action) : bool :=
  match a with PoolRelease _ => true | _ => false end.

Definition is_settlement (a : action) : bool :=
  match a with QuerySettled _ | CloseSettled _ => true | _ => false end.

Definition is_timer (a : action) : bool :=
  match a with SetTimeout _ => true | _ => false end.

Definition is_emit (a : action) : bool :=
  match a with Emit _ => true | _ => false end.

Definition emits_query (a : action) : bool :=
  match a with Emit (EvQuery _ _ _) => true | _ => false end.

Definition emits_results (a : action) : bool :=
  match a with Emit (EvResults _ _ _ _ _) => true | _ => false end.

Definition emits_query_or_results (a : action) : bool :=
  emits_query a || emits_results a.

(** The actions the factory's functions perform. *)
Definition from_factory (a : action) : bool :=
  match a with
  | DriverConnect _ _ | DriverQuery _ _ _ | DriverEnd _ => true
  | Emit (EvConnect _) | Emit (EvDisconnect _) => true
  | _ => false
  end.

(** The steps of a call: its calls to the pool, its timers, its settlement. *)
Definition is_step (a : action) : bool :=
  is_pool_call a || is_timer a || is_settlement a.

(** The four gates of an [emitControl] object are all falsy. *)
Definition gates_off (emitControl : gmap string value) : bool :=
  negb (truthy (get emitControl "connect"))
  && negb (truthy (get emitControl "disconnect"))
  && negb (truthy (get emitControl "query"))
  && negb (truthy (get emitControl "results")).

(** The events [_query] emits once the driver has answered [results]. *)
Definition query_events (this : Executor) (client : Client) (sql : string)
    (parms : list value) (x : execution) (results : Results) : list action :=
  (if truthy (get (_emitControl this) "query")
   then [Emit (EvQuery sql parms (processID client))] else [])
  ++ (if truthy (get (_emitControl this) "results")
      then [Emit (EvResults (finished x - started x) sql parms
                    (rows results) (processID client))]
      else []).

(** The error that reaches the failure handler of [query]: the pool's when
    the promise of [acquire] rejects, the driver's when a client was handed
    out and the statement is rejected. *)
Definition failure (w : query_world) : option JsError :=
  match outcome (acquired w) with
  | Rejected (Rejects err) => Some err
  | Rejected (Throws _) => None
  | Fulfilled _ =>
      match answer (executed w) with
      | inl err => Some err
      | inr _ => None
      end
  end.

(** The fields set once by the constructor, and the listeners. *)
Definition same_configuration (a b : Executor) : Prop :=
  _emitControl a = _emitControl b
  /\ _FACTORY_CREATION_WAIT_PERIOD a = _FACTORY_CREATION_WAIT_PERIOD b
  /\ _pool a = _pool b
  /\ _events a = _events b.

(** The fields set once by the constructor. *)
Definition same_settings (a b : Executor) : Prop :=
  _emitControl a = _emitControl b
  /\ _FACTORY_CREATION_WAIT_PERIOD a = _FACTORY_CREATION_WAIT_PERIOD b
  /\ _pool a = _pool b.

(** A listener throws on the event of this action. *)
Definition throws_on (this : Executor) (a : action) : bool :=
  match a with
  | Emit e => _events this e
  | _ => false
  end.

(** The actions of [t] that happen before one of them makes a listener
    throw, that one included. *)
Fixpoint until_throw (this : Executor) (t : list action) : list action :=
  match t with
  | [] => []
  | a :: t =>
      a :: (if throws_on this a then [] else until_throw this t)
  end.

(** No listener throws on an event of [t]. *)
Definition listeners_return (this : Executor) (t : list action) : bool :=
  forallb (fun a => negb (throws_on this a)) t.

(** An action passes the gates: it is no event, or the gate of its event is
    truthy. *)
Definition gate_open (emitControl : gmap string value) (a : action) : bool :=
  match a with
  | Emit e => truthy (get emitControl (event_name e))
  | _ => true
  end.

(** The event a callback of the pool gives rise to: one per connection
    opened, one per connection closed, when the gate lets it through. *)
Definition lifecycle_event (emitControl : gmap string value) (cb : callback)
  : list action :=
  match cb with
  | FactoryCreate client None =>
      if truthy (get emitControl "connect")
      then [Emit (EvConnect (processID client))] else []
  | FactoryDestroy client None =>
      if truthy (get emitControl "disconnect")
      then [Emit (EvDisconnect (processID client))] else []
  | _ => []
  end.

(** The callback is a report of a creation error with a message that is
    not empty. *)
Definition reports (cb : callback) : bool :=
  match cb with
  | FactoryCreateError err => truthy (Str err)
  | _ => false
  end.

(** The stored factory error is absent or a message that is not empty. *)
Definition error_not_empty (this : Executor) : Prop :=
  _onErrorMessage this <> Some EmptyString.

(** What runs meanwhile writes the stored factory error: a report of a
    creation error with a message, or another call of [query] that
    succeeds. *)
Definition writes_error (i : interleaved) : bool :=
  match i with
  | ByPool cb => reports cb
  | QuerySucceeded => true
  end.

(** While this call of [query] is pending nothing writes the stored factory
    error: the pool reports no creation error with a message and no other
    call of [query] succeeds. *)
Definition quiet_query (w : query_world) : Prop :=
  Forall (fun i => writes_error i = false) (during (acquired w))
  /\ Forall (fun i => writes_error i = false) (meanwhile (executed w)).

(** While this call of [close] is pending nothing writes the stored factory
    error. *)
Definition quiet_close (w : close_world) : Prop :=
  Forall (fun i => writes_error i = false) (waited w)
  /\ Forall (fun i => writes_error i = false) (during (drained w))
  /\ Forall (fun i => writes_error i = false) (during (cleared w)).

(** The string inside a value, if it is one. *)
Definition as_string (v : value) : option string :=
  match v with
  | Str s => Some s
  | _ => None
  end.

End PostgresMuchos.

(* ===================================================================== *)
(** ** Sample objects and answers *)
(* ===================================================================== *)

Module Samples.
Import Js Promise PostgresMuchos.

Definition client : Client := {| client_ref := 1; processID := 6872 |}.

Definition now_row : Results :=
  {| command := "SELECT"; rowCount := 1;
     fields := [Str "thedate"]; rows := [Obj 2] |}.

Definition boom : JsError := {| message := "boom" |}.
Definition timed_out : JsError := {| message := "ResourceRequest timed out" |}.

Definition not_on_loan : JsError :=
  {| message := "Resource not currently part of this pool" |}.

Definition refused : string := "connect ECONNREFUSED 127.0.0.1:5432".

(** [new PostgresMuchos({}, {})] *)
Definition plain : Executor := constructor ∅ ∅ None.

(** An object whose four events are all switched on. *)
Definition verbose : Executor :=
  constructor ∅ ∅
    (Some (<["connect" := Bool true]> (<["disconnect" := Bool true]>
          (<["query" := Bool true]> (<["results" := Bool true]> ∅))))).

(** The pool hands out [client] and the driver answers with a row. *)
Definition succeeds : query_world :=
  {| acquired := {| during := [ByPool (FactoryCreate client None)];
                    outcome := Fulfilled client |};
     executed := {| started := 10; finished := 12; meanwhile := [];
                    answer := inr now_row |};
     released := Fulfilled tt |}.

(** The pool hands out [client] and the driver rejects the statement. *)
Definition driver_fails : query_world :=
  {| acquired := {| during := []; outcome := Fulfilled client |};
     executed := {| started := 10; finished := 11; meanwhile := [];
                    answer := inl boom |};
     released := Fulfilled tt |}.

(** The pool gives up: no client is handed out. *)
Definition acquire_fails : query_world :=
  {| acquired := {| during := []; outcome := Rejected (Rejects timed_out) |};
     executed := {| started := 0; finished := 0; meanwhile := [];
                    answer := inl boom |};
     released := Rejected not_on_loan |}.

(** An object that has stored a factory error. *)
Definition troubled : Executor :=
  fst (perform (Callback (FactoryCreateError refused)) plain).

(** [verbose] with a listener on the [query] event that throws. *)
Definition fragile : Executor := on "query" (fun _ => true) verbose.

Definition bad_delay : JsError :=
  {| message := "delay must be a positive int" |}.

(** The call of [acquire] throws. *)
Definition acquire_throws : query_world :=
  {| acquired := {| during := []; outcome := Rejected (Throws bad_delay) |};
     executed := {| started := 0; finished := 0; meanwhile := [];
                    answer := inl boom |};
     released := Fulfilled tt |}.

Definition closes : close_world :=
  {| pending := Some 0%nat; waited := [];
     drained := {| during := []; outcome := Fulfilled tt |};
     cleared := {| during := [ByPool (FactoryDestroy client None)];
                   outcome := Fulfilled tt |} |}.

End Samples.

(* ===================================================================== *)
(** ** Properties *)
(* ===================================================================== *)

Import Js Promise PostgresMuchos.

(** Unfolding a chain down to its outcome, final state and trace. *)
Ltac chain_unfold :=
  unfold make, run_one, run_callback, create, validate, destroy,
    on_factoryCreateError, pool_acquire, pool_release, pool_drain, pool_clear,
    await, waitFunction, _query, emit, when, detached, then_, catch_, tell,
    read, write, resolve, reject, settle, escape, lift, get_var, set_var,
    resolve_outer, reject_outer, settle_outer in *.

Ltac case_truthy :=
  repeat match goal with
    | |- context [truthy ?v] => destruct (truthy v) eqn:?
    end.

Lemma events_set (m : option string) (this : Executor) :
  _events (set_onErrorMessage m this) = _events this.
Proof. reflexivity. Qed.

Ltac case_listeners :=
  repeat (rewrite ?events_set;
          match goal with
          | |- context [_events ?this ?e] => destruct (_events this e) eqn:?
          end;
          cbn).

(** Equality of traces up to the bracketing of their concatenation. *)
Ltac trace_eq :=
  repeat (first [ rewrite app_nil_r
                | rewrite <- app_assoc
                | progress cbn [app] ]);
  reflexivity.

(** *** Callbacks of the pool *)

Section Callbacks.
Context {E : Type}.

Lemma same_configuration_refl this : same_configuration this this.
Proof. by repeat split. Qed.

Lemma same_configuration_trans a b c :
  same_configuration a b -> same_configuration b c -> same_configuration a c.
Proof. intros (?&?&?&?) (?&?&?&?). repeat split; congruence. Qed.

Lemma same_configuration_set m this :
  same_configuration this (set_onErrorMessage m this).
Proof. by repeat split. Qed.

(** A callback never rejects into the caller, leaves the configuration
    alone and only does what the factory does; with a falsy gate it does
    not emit. *)
Lemma run_callback_inv (cb : callback) (this : Executor) :
  exists this' t,
    run_callback (E := E) cb this = (Some (Fulfilled tt), this', t)
    /\ same_configuration this this'
    /\ Forall (fun a => from_factory a = true) t
    /\ (gates_off (_emitControl this) = true ->
        Forall (fun a => is_emit a = false) t).
Proof.
  destruct cb as [client [err|] | client [err|] | client [err|] | err];
    chain_unfold; unfold gates_off; case_truthy; cbn; case_listeners; cbn.
  all: eexists _, _; split; [reflexivity|].
  all: repeat split; auto using same_configuration_refl;
       repeat constructor; try discriminate.
Qed.

Lemma run_callbacks_inv (cbs : list callback) (this : Executor) :
  exists this' t,
    run_callbacks (E := E) cbs this = (Some (Fulfilled tt), this', t)
    /\ same_configuration this this'
    /\ Forall (fun a => from_factory a = true) t
    /\ (gates_off (_emitControl this) = true ->
        Forall (fun a => is_emit a = false) t).
Proof.
  revert this; induction cbs as [|cb cbs IH]; intros this.
  - exists this, []. cbn. unfold resolve.
    repeat split; auto using same_configuration_refl.
  - destruct (run_callback_inv cb this) as (this1 & t1 & Hcb & Hc1 & Hf1 & Hg1).
    destruct (IH this1) as (this2 & t2 & Hcbs & Hc2 & Hf2 & Hg2).
    exists this2, (t1 ++ t2). cbn [run_callbacks]. unfold then_ at 1.
    rewrite Hcb, Hcbs. split; [reflexivity|].
    split; [eauto using same_configuration_trans|].
    split; [by apply Forall_app|].
    intros Hoff. apply Forall_app; split; [auto|].
    apply Hg2. destruct Hc1 as (<- & _). exact Hoff.
Qed.

(** The same of everything that runs while a call waits. *)
Lemma run_one_inv (i : interleaved) (this : Executor) :
  exists this' t,
    run_one (E := E) i this = (Some (Fulfilled tt), this', t)
    /\ same_configuration this this'
    /\ Forall (fun a => from_factory a = true) t
    /\ (gates_off (_emitControl this) = true ->
        Forall (fun a => is_emit a = false) t).
Proof.
  destruct i as [cb|]; [apply run_callback_inv|].
  exists (set_onErrorMessage None this), [].
  repeat split; auto using Forall_nil_2.
Qed.

Lemma run_interleaved_inv (l : list interleaved) (this : Executor) :
  exists this' t,
    run_interleaved (E := E) l this = (Some (Fulfilled tt), this', t)
    /\ same_configuration this this'
    /\ Forall (fun a => from_factory a = true) t
    /\ (gates_off (_emitControl this) = true ->
        Forall (fun a => is_emit a = false) t).
Proof.
  revert this; induction l as [|i l IH]; intros this.
  - exists this, []. cbn. unfold resolve.
    repeat split; auto using same_configuration_refl.
  - destruct (run_one_inv i this) as (this1 & t1 & Hi & Hc1 & Hf1 & Hg1).
    destruct (IH this1) as (this2 & t2 & Hl & Hc2 & Hf2 & Hg2).
    exists this2, (t1 ++ t2). cbn [run_interleaved]. unfold then_ at 1.
    rewrite Hi, Hl. split; [reflexivity|].
    split; [eauto using same_configuration_trans|].
    split; [by apply Forall_app|].
    intros Hoff. apply Forall_app; split; [auto|].
    apply Hg2. destruct Hc1 as (<- & _). exact Hoff.
Qed.

End Callbacks.

(** *** The ways a call of [query] ends *)

Section QueryPaths.
Variables (sql : string) (parms : option (list value)) (w : query_world).
Variables (this : Executor).

(** The call of [acquire] throws inside the body of the new promise. *)
Lemma query_acquire_threw (err : JsError) :
  outcome (acquired w) = Rejected (Throws err) ->
  query sql parms w this
  = (Some (Rejected (Raised err)), this,
     [PoolAcquire 0; QuerySettled (Rejected (Raised err))]).
Proof. intros Hacq. unfold query. chain_unfold. by rewrite Hacq. Qed.

Variables (this1 : Executor) (t1 : list action).

(** What runs while the pool is asked for a client. *)
Hypothesis Hacquiring :
  run_interleaved (E := JsError) (during (acquired w)) this
  = (Some (Fulfilled tt), this1, t1).

Lemma query_acquire_rejected (err : JsError) :
  outcome (acquired w) = Rejected (Rejects err) ->
  query sql parms w this
  = (Some (Rejected (Message (rejection err this1))), this1,
     [PoolAcquire 0] ++ t1
     ++ [PoolRelease None;
         QuerySettled (Rejected (Message (rejection err this1)))]).
Proof.
  intros Hacq. unfold query. chain_unfold.
  rewrite Hacq. cbn. rewrite Hacquiring. cbn. trace_eq.
Qed.

Variables (client : Client) (this2 : Executor) (t2 : list action).
Hypothesis Hacquired : outcome (acquired w) = Fulfilled client.

(** What runs while the driver executes the statement. *)
Hypothesis Hexecuting :
  run_interleaved (E := JsError) (meanwhile (executed w)) this1
  = (Some (Fulfilled tt), this2, t2).

Lemma query_execution_failed (err : JsError) :
  answer (executed w) = inl err ->
  query sql parms w this
  = (Some (Rejected (Message (rejection err this2))), this2,
     [PoolAcquire 0] ++ t1
     ++ [DriverQuery client sql (default [] parms)] ++ t2
     ++ [PoolRelease (Some client);
         QuerySettled (Rejected (Message (rejection err this2)))]).
Proof.
  intros Hans. unfold query. chain_unfold.
  rewrite Hacquired. cbn. rewrite Hacquiring.
  cbn. rewrite Hexecuting, Hans. cbn.
  trace_eq.
Qed.

(** The driver answers with results: the stored error is cleared and the
    events are emitted; when no listener throws, the client is released and
    the call resolves; when one throws, the callback of the driver ends
    there. *)
Lemma query_answered (results : Results) :
  answer (executed w) = inr results ->
  let events :=
    query_events this2 client sql (default [] parms) (executed w) results in
  query sql parms w this
  = (if listeners_return this2 events
     then Some (Fulfilled results) else None,
     set_onErrorMessage None this2,
     [PoolAcquire 0] ++ t1
     ++ [DriverQuery client sql (default [] parms)] ++ t2
     ++ until_throw this2 events
     ++ (if listeners_return this2 events
         then [PoolRelease (Some client); QuerySettled (Fulfilled results)]
         else [])).
Proof.
  intros Hans events. subst events.
  unfold query, query_events, listeners_return. chain_unfold.
  rewrite Hacquired. cbn. rewrite Hacquiring.
  cbn. rewrite Hexecuting, Hans. cbn.
  case_truthy; cbn; case_listeners; cbn; trace_eq.
Qed.

End QueryPaths.

(** *** The ways a call of [close] ends *)

Section ClosePaths.
Variables (w : close_world) (this this1 this2 this3 : Executor).
Variables (t1 t2 t3 : list action).

Hypothesis Hwaiting :
  run_interleaved (E := JsError) (waited w) this
  = (Some (Fulfilled tt), this1, t1).
Hypothesis Hdraining :
  run_interleaved (E := JsError) (during (drained w)) this1
  = (Some (Fulfilled tt), this2, t2).
Hypothesis Hclearing :
  run_interleaved (E := JsError) (during (cleared w)) this2
  = (Some (Fulfilled tt), this3, t3).

Lemma close_paths :
  let timeout :=
    match pending w with
    | Some size =>
        if (0 <? size)%nat then _FACTORY_CREATION_WAIT_PERIOD this else 0
    | None => 0
    end in
  close w this =
  match outcome (drained w), outcome (cleared w) with
  | Rejected err, _ =>
      (Some (Rejected err), this2,
       [SetTimeout timeout] ++ t1 ++ [TimerFired timeout]
       ++ [PoolDrain] ++ t2
       ++ [CloseSettled (Rejected err)])
  | Fulfilled _, Rejected err =>
      (Some (Rejected err), this3,
       [SetTimeout timeout] ++ t1 ++ [TimerFired timeout]
       ++ [PoolDrain] ++ t2 ++ [PoolClear] ++ t3
       ++ [CloseSettled (Rejected err)])
  | Fulfilled _, Fulfilled _ =>
      (Some (Fulfilled tt), this3,
       [SetTimeout timeout] ++ t1 ++ [TimerFired timeout]
       ++ [PoolDrain] ++ t2 ++ [PoolClear] ++ t3
       ++ [CloseSettled (Fulfilled tt)])
  end.
Proof.
  intros timeout. unfold close. fold timeout. chain_unfold.
  cbn. rewrite Hwaiting. cbn. rewrite Hdraining.
  destruct (outcome (drained w)) as [[]|err]; cbn; [|f_equal; trace_eq].
  rewrite Hclearing.
  destruct (outcome (cleared w)) as [[]|err]; cbn; f_equal; trace_eq.
Qed.

End ClosePaths.

(** *** Reading traces: the classes of actions *)

Lemma filter_none {A} (f : A -> bool) (l : list A) :
  Forall (fun a => f a = false) l -> List.filter f l = [].
Proof.
  induction 1 as [|a l Ha _ IH]; cbn; [reflexivity|]. by rewrite Ha.
Qed.

Lemma from_factory_not_step (t : list action) :
  Forall (fun a => from_factory a = true) t ->
  Forall (fun a => is_step a = false) t.
Proof.
  intros Ht. eapply Forall_impl; [exact Ht|].
  intros [] H; try discriminate H; try reflexivity.
Qed.

Lemma from_factory_not_query_results (t : list action) :
  Forall (fun a => from_factory a = true) t ->
  Forall (fun a => emits_query a = false /\ emits_results a = false) t.
Proof.
  intros Ht. eapply Forall_impl; [exact Ht|].
  intros a H. destruct a as [| | | | | | | | | e | |];
    try discriminate H; try (by split).
  destruct e; try discriminate H; by split.
Qed.

Lemma query_events_not_step this client sql parms x results :
  Forall (fun a => is_step a = false)
    (query_events this client sql parms x results).
Proof. unfold query_events. case_truthy; repeat constructor. Qed.

Lemma query_events_gates_off this client sql parms x results :
  gates_off (_emitControl this) = true ->
  query_events this client sql parms x results = [].
Proof.
  unfold gates_off, query_events. intros H.
  repeat (apply andb_prop in H as [H ?]).
  by repeat match goal with
     | H : negb ?b = true |- _ => apply negb_true_iff in H; rewrite H
     end.
Qed.

Lemma query_events_query_off this client sql parms x results :
  truthy (get (_emitControl this) "query") = false ->
  Forall (fun a => emits_query a = false)
    (query_events this client sql parms x results).
Proof.
  unfold query_events. intros ->. case_truthy; repeat constructor.
Qed.

Lemma until_throw_Forall (P : action -> Prop) this (t : list action) :
  Forall P t -> Forall P (until_throw this t).
Proof.
  induction 1 as [|a t Ha _ IH]; cbn; [constructor|].
  constructor; [exact Ha|]. destruct (throws_on this a); [constructor|exact IH].
Qed.

Lemma until_throw_all this (t : list action) :
  listeners_return this t = true -> until_throw this t = t.
Proof.
  unfold listeners_return. induction t as [|a t IH]; cbn; [reflexivity|].
  intros [Ha Ht]%andb_prop. apply negb_true_iff in Ha. rewrite Ha.
  by rewrite IH.
Qed.

Lemma query_events_same this this' client sql parms x results :
  same_configuration this this' ->
  query_events this' client sql parms x results
  = query_events this client sql parms x results.
Proof. intros (Hec & _). unfold query_events. by rewrite Hec. Qed.

(** *** Every operation keeps the configuration and respects the gates *)

Ltac forall_parts :=
  repeat first [rewrite Forall_app | rewrite Forall_cons];
  repeat split; auto using Forall_nil_2.

Lemma emits_of_factory_off (t : list action) :
  Forall (fun a => from_factory a = true) t ->
  Forall (fun a => emits_query a = false) t.
Proof.
  intros Ht. eapply Forall_impl; [exact (from_factory_not_query_results _ Ht)|].
  by intros a [? _].
Qed.

Lemma query_inv sql parms w this :
  exists o this' t,
    query sql parms w this = (o, this', t)
    /\ same_configuration this this'
    /\ (gates_off (_emitControl this) = true ->
        Forall (fun a => is_emit a = false) t)
    /\ (truthy (get (_emitControl this) "query") = false ->
        Forall (fun a => emits_query a = false) t).
Proof.
  destruct (run_interleaved_inv (E := JsError) (during (acquired w)) this)
    as (this1 & t1 & H1 & Hc1 & Hf1 & Hg1).
  destruct (run_interleaved_inv (E := JsError) (meanwhile (executed w)) this1)
    as (this2 & t2 & H2 & Hc2 & Hf2 & Hg2).
  pose proof (same_configuration_trans _ _ _ Hc1 Hc2) as Hc.
  assert (Hec1 : _emitControl this1 = _emitControl this) by (by destruct Hc1).
  assert (Hec2 : _emitControl this2 = _emitControl this) by (by destruct Hc).
  rewrite Hec1 in Hg2.
  destruct (outcome (acquired w)) as [client|[err|err]] eqn:Ha;
    [destruct (answer (executed w)) as [err|results] eqn:Hx| |].
  - eexists _, _, _. split; [by eapply query_execution_failed|].
    split; [exact Hc|]. split; intros Hoff; forall_parts;
      auto using emits_of_factory_off.
  - eexists _, _, _. split; [by eapply query_answered|].
    split; [eauto using same_configuration_trans, same_configuration_set|].
    split; intros Hoff; forall_parts; auto using emits_of_factory_off.
    + rewrite query_events_gates_off; [constructor | by rewrite Hec2].
    + destruct (listeners_return _ _); repeat constructor.
    + apply until_throw_Forall, query_events_query_off. by rewrite Hec2.
    + destruct (listeners_return _ _); repeat constructor.
  - eexists _, _, _. split; [by eapply query_acquire_rejected|].
    split; [exact Hc1|]. split; intros Hoff; forall_parts;
      auto using emits_of_factory_off.
  - eexists _, _, _. split; [by eapply query_acquire_threw|].
    split; [apply same_configuration_refl|].
    split; intros Hoff; forall_parts.
Qed.

Lemma close_inv w this :
  exists o this' t,
    close w this = (Some o, this', t)
    /\ same_configuration this this'
    /\ Forall (fun a => emits_query a = false) t
    /\ (gates_off (_emitControl this) = true ->
        Forall (fun a => is_emit a = false) t).
Proof.
  destruct (run_interleaved_inv (E := JsError) (waited w) this)
    as (this1 & t1 & H1 & Hc1 & Hf1 & Hg1).
  destruct (run_interleaved_inv (E := JsError) (during (drained w)) this1)
    as (this2 & t2 & H2 & Hc2 & Hf2 & Hg2).
  destruct (run_interleaved_inv (E := JsError) (during (cleared w)) this2)
    as (this3 & t3 & H3 & Hc3 & Hf3 & Hg3).
  pose proof (same_configuration_trans _ _ _ Hc1 Hc2) as Hc12.
  pose proof (same_configuration_trans _ _ _ Hc12 Hc3) as Hc13.
  assert (Hec1 : _emitControl this1 = _emitControl this) by (by destruct Hc1).
  assert (Hec2 : _emitControl this2 = _emitControl this) by (by destruct Hc12).
  rewrite Hec1 in Hg2. rewrite Hec2 in Hg3.
  rewrite (close_paths w this this1 this2 this3 t1 t2 t3 H1 H2 H3).
  destruct (outcome (drained w)) as [[]|err];
    [destruct (outcome (cleared w)) as [[]|err]|].
  all: eexists _, _, _; split; [reflexivity|].
  all: split; [assumption|].
  all: split; [|intros Hoff]; forall_parts; auto using emits_of_factory_off.
Qed.

Lemma same_settings_refl this : same_settings this this.
Proof. by repeat split. Qed.

Lemma same_settings_trans a b c :
  same_settings a b -> same_settings b c -> same_settings a c.
Proof. intros (?&?&?) (?&?&?). repeat split; congruence. Qed.

Lemma same_configuration_settings a b :
  same_configuration a b -> same_settings a b.
Proof. by intros (?&?&?&?). Qed.

Lemma perform_inv op this :
  exists this' t,
    perform op this = (this', t)
    /\ same_settings this this'
    /\ (gates_off (_emitControl this) = true ->
        Forall (fun a => is_emit a = false) t)
    /\ (truthy (get (_emitControl this) "query") = false ->
        Forall (fun a => emits_query a = false) t).
Proof.
  destruct op as [sql parms w | w | timeout l | | name listener | cb];
    cbn [perform].
  - destruct (query_inv sql parms w this) as (o & this' & t & -> & ? & ? & ?).
    exists this', t. auto using same_configuration_settings.
  - destruct (close_inv w this) as (o & this' & t & -> & ? & ? & ?).
    exists this', t. auto using same_configuration_settings.
  - destruct (run_interleaved_inv (E := JsError) l this)
      as (this' & t & Hl & ? & ? & ?).
    exists this', (SetTimeout timeout :: t ++ [TimerFired timeout]).
    unfold waitFunction. chain_unfold. rewrite Hl.
    split; [cbn; f_equal; trace_eq|].
    split; [auto using same_configuration_settings|].
    split; intros Hoff; forall_parts; auto using emits_of_factory_off.
  - exists this, []. auto using same_settings_refl, Forall_nil_2.
  - exists (on name listener this), [].
    split; [reflexivity|]. split; [by repeat split|].
    auto using Forall_nil_2.
  - destruct (run_callback_inv (E := JsError) cb this)
      as (this' & t & -> & ? & ? & ?).
    exists this', t.
    auto using emits_of_factory_off, same_configuration_settings.
Qed.

Lemma run_inv ops this :
  exists this' t,
    run ops this = (this', t)
    /\ same_settings this this'
    /\ (gates_off (_emitControl this) = true ->
        Forall (fun a => is_emit a = false) t)
    /\ (truthy (get (_emitControl this) "query") = false ->
        Forall (fun a => emits_query a = false) t).
Proof.
  revert this; induction ops as [|op ops IH]; intros this; cbn [run].
  - exists this, []. auto using same_settings_refl, Forall_nil_2.
  - destruct (perform_inv op this) as (this1 & t1 & -> & Hc1 & Hg1 & Hq1).
    destruct (IH this1) as (this2 & t2 & -> & Hc2 & Hg2 & Hq2).
    assert (Hec : _emitControl this1 = _emitControl this) by (by destruct Hc1).
    rewrite Hec in Hg2, Hq2.
    exists this2, (t1 ++ t2). split; [reflexivity|].
    split; [eauto using same_settings_trans|].
    split; intros Hoff; forall_parts.
Qed.

Lemma listeners_return_same this this' (t : list action) :
  same_configuration this this' ->
  listeners_return this' t = listeners_return this t.
Proof.
  intros (_ & _ & _ & Hev). unfold listeners_return, throws_on.
  by rewrite Hev.
Qed.

(* ===================================================================== *)
(** ** The specification's claims *)
(* ===================================================================== *)

(** C1.  The claim asks that every call of [query] to which the pool hands
    a client releases that client once and then settles.  The code does not
    when a listener throws: the driver has answered with results, [_query]
    emits from inside the driver's callback, a listener of the [query] or
    [results] event throws, the callback ends there; the call never
    settles, and its trace, which holds the execution on the client, holds
    no release and no settlement. *)
Theorem query_leaks_when_listener_throws
    (this : Executor) (sql : string) (parms : option (list value))
    (cbs : list interleaved) (client : Client) (x : execution)
    (results : Results) (rel : settled JsError unit) :
  let w := {| acquired := {| during := cbs; outcome := Fulfilled client |};
              executed := x;
              released := rel |} in
  answer x = inr results ->
  listeners_return this
    (query_events this client sql (default [] parms) x results) = false ->
  fst (fst (query sql parms w this)) = None
  /\ In (DriverQuery client sql (default [] parms))
       (snd (query sql parms w this))
  /\ Forall (fun a => is_release a = false /\ is_settlement a = false)
       (snd (query sql parms w this)).
Proof.
  intros w Hx Hthrow.
  destruct (run_interleaved_inv (E := JsError) cbs this)
    as (this1 & t1 & H1 & Hc1 & Hf1 & _).
  destruct (run_interleaved_inv (E := JsError) (meanwhile x) this1)
    as (this2 & t2 & H2 & Hc2 & Hf2 & _).
  pose proof (same_configuration_trans _ _ _ Hc1 Hc2) as Hc.
  rewrite (query_answered sql parms w this this1 t1 H1
             client this2 t2 eq_refl H2 results Hx).
  cbn -[query_events].
  rewrite (query_events_same this this2 _ _ _ _ _ Hc).
  rewrite (listeners_return_same this this2 _ Hc), Hthrow.
  split; [reflexivity|].
  split.
  { right. apply in_or_app; right. by left. }
  apply from_factory_not_step in Hf1, Hf2.
  pose proof (query_events_not_step this client sql (default [] parms)
                x results) as He.
  apply (until_throw_Forall _ this2) in He.
  assert (Hstep : forall a, is_step a = false ->
                            is_release a = false /\ is_settlement a = false).
  { by intros []. }
  constructor; [by split|].
  rewrite app_nil_r. forall_parts;
    (eapply Forall_impl; [eassumption|exact Hstep]).
Qed.

Lemma query_leaks_when_listener_throws_witness :
  fst (fst (query "select now()" None Samples.succeeds Samples.fragile)) = None
  /\ In (DriverQuery Samples.client "select now()" [])
       (snd (query "select now()" None Samples.succeeds Samples.fragile))
  /\ Forall (fun a => is_release a = false /\ is_settlement a = false)
       (snd (query "select now()" None Samples.succeeds Samples.fragile)).
Proof.
  apply (query_leaks_when_listener_throws Samples.fragile "select now()" None
           [ByPool (FactoryCreate Samples.client None)] Samples.client
           (executed Samples.succeeds) Samples.now_row (Fulfilled tt)).
  - reflexivity.
  - reflexivity.
Defined.

(** C2.  On an object built by the constructor, after any operations,
    [close] sets a timer of 500 ms when the pool's set of pending creations
    is not empty and of 0 ms otherwise; only when that timer has fired --
    whatever ran on the object meanwhile has run -- it calls the pool's
    [drain]; when [drain] has resolved it calls [clear]; when [clear] has
    resolved it resolves.  When [drain] rejects, [clear] is not called and
    [close] rejects with that error; when [clear] rejects, [close] rejects
    with that error; nothing is called twice. *)
Theorem close_waits_drains_clears
    (dbConfig poolConfig : gmap string value)
    (emitControl : option (gmap string value))
    (ops : list operation) (w : close_world) :
  let this := fst (run ops (constructor dbConfig poolConfig emitControl)) in
  let grace :=
    match pending w with
    | Some (S _) => 500
    | Some O | None => 0
    end in
  let '(_, this1, waiting) :=
    run_interleaved (E := JsError) (waited w) this in
  let '(_, this2, draining) :=
    run_interleaved (E := JsError) (during (drained w)) this1 in
  let '(_, this3, clearing) :=
    run_interleaved (E := JsError) (during (cleared w)) this2 in
  Forall (fun a => is_step a = false) (waiting ++ draining ++ clearing)
  /\ close w this
     = match outcome (drained w), outcome (cleared w) with
       | Fulfilled _, Fulfilled _ =>
           (Some (Fulfilled tt), this3,
            [SetTimeout grace] ++ waiting ++ [TimerFired grace]
            ++ [PoolDrain] ++ draining
            ++ [PoolClear] ++ clearing
            ++ [CloseSettled (Fulfilled tt)])
       | Fulfilled _, Rejected err =>
           (Some (Rejected err), this3,
            [SetTimeout grace] ++ waiting ++ [TimerFired grace]
            ++ [PoolDrain] ++ draining
            ++ [PoolClear] ++ clearing
            ++ [CloseSettled (Rejected err)])
       | Rejected err, _ =>
           (Some (Rejected err), this2,
            [SetTimeout grace] ++ waiting ++ [TimerFired grace]
            ++ [PoolDrain] ++ draining
            ++ [CloseSettled (Rejected err)])
       end.
Proof.
  intros this grace.
  destruct (run_inv ops (constructor dbConfig poolConfig emitControl))
    as (this0 & t0 & Hrun & (_ & Hperiod & _) & _).
  assert (Hthis : _FACTORY_CREATION_WAIT_PERIOD this = 500).
  { subst this. rewrite Hrun. cbn [fst]. by rewrite <- Hperiod. }
  destruct (run_interleaved_inv (E := JsError) (waited w) this)
    as (this1 & t1 & H1 & _ & Hf1 & _).
  destruct (run_interleaved_inv (E := JsError) (during (drained w)) this1)
    as (this2 & t2 & H2 & _ & Hf2 & _).
  destruct (run_interleaved_inv (E := JsError) (during (cleared w)) this2)
    as (this3 & t3 & H3 & _ & Hf3 & _).
  rewrite H1, H2, H3.
  apply from_factory_not_step in Hf1, Hf2, Hf3.
  split; [by rewrite !Forall_app|].
  rewrite (close_paths w this this1 this2 this3 t1 t2 t3 H1 H2 H3), Hthis.
  replace (match pending w with
           | Some size => if (0 <? size)%nat then 500 else 0
           | None => 0
           end) with grace by (subst grace; by destruct (pending w) as [[|n]|]).
  by destruct (outcome (drained w)) as [[]|err];
    [destruct (outcome (cleared w)) as [[]|err]|].
Qed.

Lemma rejection_spelled (err : JsError) (this : Executor) :
  rejection err this
  = message err +:+ ": " +:+ default EmptyString (_onErrorMessage this).
Proof.
  unfold rejection. destruct (_onErrorMessage this) as [[|a m]|]; reflexivity.
Qed.

(** Counterexample to C3 as stated.  On a fresh object the driver rejects
    the statement with the message boom; no factory error is stored, so the
    caller should receive boom with nothing appended, and receives boom
    followed by a colon and a space. *)
Lemma claimed_rejection_refuted :
  let '(o, this', _) :=
    query "select now()" None Samples.driver_fails Samples.plain in
  failure Samples.driver_fails = Some Samples.boom
  /\ _onErrorMessage this' = None
  /\ o = Some (Rejected (Message "boom: "))
  /\ o <> Some (Rejected (Message (claimed_rejection Samples.boom this'))).
Proof. vm_compute. repeat split. discriminate. Qed.

(** C3, amended.  A call of [query] whose failure reaches its failure
    handler -- the promise of the pool's [acquire] rejects, or a client was
    handed out and the driver rejects the statement -- rejects with the
    message of that error, then a colon and a space, then the factory error
    stored at that moment, or nothing when none is stored.  (A call of
    [acquire] that throws is not such a failure.) *)
Theorem query_rejects_with_composite_message
    (this : Executor) (sql : string) (parms : option (list value))
    (w : query_world) (err : JsError) :
  failure w = Some err ->
  exists (this' : Executor) (t : list action),
    query sql parms w this
    = (Some (Rejected (Message
               (message err +:+ ": "
                +:+ default EmptyString (_onErrorMessage this')))),
       this', t).
Proof.
  unfold failure. intros Hfail.
  destruct (run_interleaved_inv (E := JsError) (during (acquired w)) this)
    as (this1 & t1 & H1 & _).
  destruct (run_interleaved_inv (E := JsError) (meanwhile (executed w)) this1)
    as (this2 & t2 & H2 & _).
  destruct (outcome (acquired w)) as [client|[err'|err']] eqn:Ha;
    [|injection Hfail as ->|discriminate].
  - destruct (answer (executed w)) as [err'|results] eqn:Hx; [|discriminate].
    injection Hfail as ->. eexists _, _.
    rewrite <- rejection_spelled. by eapply query_execution_failed.
  - eexists _, _.
    rewrite <- rejection_spelled. by eapply query_acquire_rejected.
Qed.

Lemma query_rejects_with_composite_message_witness :
  exists (this' : Executor) (t : list action),
    query "select now()" None Samples.driver_fails Samples.plain
    = (Some (Rejected (Message
               (message Samples.boom +:+ ": "
                +:+ default EmptyString (_onErrorMessage this')))),
       this', t).
Proof.
  apply (query_rejects_with_composite_message Samples.plain "select now()"
           None Samples.driver_fails Samples.boom).
  reflexivity.
Defined.

(** Counterexample to C4 as stated.  On a fresh object the promise of
    [acquire] rejects; the handler of the failure still calls [release],
    with the [null] that the variable [client] holds, before it rejects. *)
Lemma no_release_on_acquire_failure_refuted :
  let t :=
    snd (query "select now()" None Samples.acquire_fails Samples.plain) in
  outcome (acquired Samples.acquire_fails)
  = Rejected (Rejects Samples.timed_out)
  /\ t = [PoolAcquire 0; PoolRelease None;
          QuerySettled (Rejected (Message "ResourceRequest timed out: "))]
  /\ ~ Forall (fun a => is_release a = false) t.
Proof.
  vm_compute. repeat split. intros Hno.
  apply Forall_cons in Hno as [_ Hno]. apply Forall_cons in Hno as [Hrel _].
  discriminate Hrel.
Qed.

(** C4, amended.  When the promise of the pool's [acquire] rejects, so that
    no client is handed to the call of [query], the call releases no client:
    after the acquire it calls [release] once, with [null], lets the outcome
    of that call go, and then rejects with the message of the pool's error,
    a colon and a space, and the stored factory error if there is one.  (A
    call of [acquire] that throws is left out.) *)
Theorem query_acquire_failure_releases_null
    (this : Executor) (sql : string) (parms : option (list value))
    (cbs : list interleaved) (err : JsError) (x : execution)
    (rel : settled JsError unit) :
  let w := {| acquired := {| during := cbs;
                             outcome := Rejected (Rejects err) |};
              executed := x;
              released := rel |} in
  exists (this' : Executor) (t1 : list action),
    let m := message err +:+ ": "
             +:+ default EmptyString (_onErrorMessage this') in
    query sql parms w this
    = (Some (Rejected (Message m)), this',
       [PoolAcquire 0] ++ t1
       ++ [PoolRelease None; QuerySettled (Rejected (Message m))])
    /\ Forall (fun a => is_step a = false) t1
    /\ List.filter is_release (snd (query sql parms w this))
       = [PoolRelease None].
Proof.
  intros w.
  destruct (run_interleaved_inv (E := JsError) cbs this)
    as (this1 & t1 & H1 & _ & Hf1 & _).
  pose proof (query_acquire_rejected sql parms w this this1 t1 H1 err eq_refl)
    as Hq.
  rewrite rejection_spelled in Hq.
  exists this1, t1. cbn zeta. split; [exact Hq|].
  split; [by apply from_factory_not_step|].
  rewrite Hq. cbn. rewrite List.filter_app. cbn.
  rewrite filter_none; [reflexivity|].
  eapply Forall_impl; [exact Hf1|]. by intros [].
Qed.

(** *** Where an action sits in a trace *)

Lemma occurs_after_prefix {A} (Q : A -> bool)
    (l1 l2 pre post : list A) (a : A) :
  l1 ++ l2 = pre ++ a :: post ->
  Forall (fun b => Q b = false) l1 ->
  Q a = true ->
  exists mid, pre = l1 ++ mid.
Proof.
  revert pre; induction l1 as [|b l1 IH]; intros pre Heq Hl1 Ha.
  - by exists pre.
  - apply Forall_cons in Hl1 as [Hb Hl1].
    destruct pre as [|b' pre]; cbn in Heq; injection Heq as -> Heq.
    + congruence.
    + destruct (IH pre Heq Hl1 Ha) as [mid ->]. by exists mid.
Qed.

Lemma absent_everywhere {A} (Q : A -> bool) (pre post : list A) (a : A) :
  Forall (fun b => Q b = false) (pre ++ a :: post) -> Q a = true -> False.
Proof.
  rewrite Forall_app, Forall_cons. intros (_ & Ha & _) Ha'. congruence.
Qed.

Lemma factory_emits_no_query_or_results (t : list action) :
  Forall (fun a => from_factory a = true) t ->
  Forall (fun a => emits_query_or_results a = false) t.
Proof.
  intros Ht. eapply Forall_impl; [exact (from_factory_not_query_results _ Ht)|].
  unfold emits_query_or_results. by intros a [-> ->].
Qed.

(** C5.  A call of [query] whose statement the driver rejects emits neither
    a [query] nor a [results] event, whatever [emitControl] says; and in any
    call, a [query] or [results] event in the trace means that the driver
    answered with results, and it comes after the statement was handed to the
    driver. *)
Theorem query_events_only_after_success
    (this : Executor) (sql : string) (parms : option (list value)) :
  (forall cbs client started finished meanwhile err rel,
      let w := {| acquired := {| during := cbs; outcome := Fulfilled client |};
                  executed := {| started := started; finished := finished;
                                 meanwhile := meanwhile; answer := inl err |};
                  released := rel |} in
      Forall (fun a => emits_query a = false /\ emits_results a = false)
        (snd (query sql parms w this)))
  /\ (forall w pre a post,
         snd (query sql parms w this) = pre ++ a :: post ->
         emits_query_or_results a = true ->
         exists client results,
           outcome (acquired w) = Fulfilled client
           /\ answer (executed w) = inr results
           /\ In (DriverQuery client sql (default [] parms)) pre).
Proof.
  split.
  - intros cbs client started finished meanwhile err rel w.
    destruct (run_interleaved_inv (E := JsError) cbs this)
      as (this1 & t1 & H1 & _ & Hf1 & _).
    destruct (run_interleaved_inv (E := JsError) meanwhile this1)
      as (this2 & t2 & H2 & _ & Hf2 & _).
    rewrite (query_execution_failed sql parms w this this1 t1 H1
               client this2 t2 eq_refl H2 err eq_refl).
    apply from_factory_not_query_results in Hf1, Hf2.
    cbn [snd]. forall_parts.
  - intros w pre a post Htrace Ha.
    destruct (run_interleaved_inv (E := JsError) (during (acquired w)) this)
      as (this1 & t1 & H1 & _ & Hf1 & _).
    destruct (run_interleaved_inv (E := JsError) (meanwhile (executed w))
                this1)
      as (this2 & t2 & H2 & _ & Hf2 & _).
    apply factory_emits_no_query_or_results in Hf1, Hf2.
    destruct (outcome (acquired w)) as [client|[err|err]] eqn:Hacq;
      [destruct (answer (executed w)) as [err|results] eqn:Hx| |].
    + exfalso. apply (absent_everywhere emits_query_or_results pre post a);
        [|exact Ha].
      rewrite <- Htrace.
      rewrite (query_execution_failed sql parms w this this1 t1 H1
                 client this2 t2 Hacq H2 err Hx).
      cbn [snd]. forall_parts.
    + exists client, results. split; [reflexivity|]. split; [reflexivity|].
      rewrite (query_answered sql parms w this this1 t1 H1
                 client this2 t2 Hacq H2 results Hx) in Htrace.
      cbn [snd] in Htrace.
      destruct (occurs_after_prefix emits_query_or_results
                  ([PoolAcquire 0] ++ t1
                   ++ [DriverQuery client sql (default [] parms)])
                  (t2 ++ until_throw this2
                           (query_events this2 client sql
                              (default [] parms) (executed w) results)
                   ++ (if listeners_return this2
                            (query_events this2 client sql
                               (default [] parms) (executed w) results)
                       then [PoolRelease (Some client);
                             QuerySettled (Fulfilled results)]
                       else []))
                  pre post a) as [mid ->]; [|forall_parts|exact Ha|].
      * rewrite <- Htrace. trace_eq.
      * apply in_or_app; left. apply in_or_app; right.
        apply in_or_app; right. by left.
    + exfalso. apply (absent_everywhere emits_query_or_results pre post a);
        [|exact Ha].
      rewrite <- Htrace.
      rewrite (query_acquire_rejected sql parms w this this1 t1 H1 err Hacq).
      cbn [snd]. forall_parts.
    + exfalso. apply (absent_everywhere emits_query_or_results pre post a);
        [|exact Ha].
      rewrite <- Htrace.
      rewrite (query_acquire_threw sql parms w this err Hacq).
      cbn [snd]. forall_parts.
Qed.

Lemma query_events_only_after_success_witness :
  exists client results,
    outcome (acquired Samples.succeeds) = Fulfilled client
    /\ answer (executed Samples.succeeds) = inr results
    /\ In (DriverQuery client "select now()" [])
         [PoolAcquire 0;
          DriverConnect ∅ Samples.client;
          Emit (EvConnect 6872);
          DriverQuery Samples.client "select now()" []].
Proof.
  apply (proj2 (query_events_only_after_success Samples.verbose
                  "select now()" None)
           Samples.succeeds
           [PoolAcquire 0;
            DriverConnect ∅ Samples.client;
            Emit (EvConnect 6872);
            DriverQuery Samples.client "select now()" []]
           (Emit (EvQuery "select now()" [] 6872))
           [Emit (EvResults 2 "select now()" [] [Obj 2] 6872);
            PoolRelease (Some Samples.client);
            QuerySettled (Fulfilled Samples.now_row)]).
  - vm_compute. reflexivity.
  - reflexivity.
Defined.

(** C6.  The factory's [validate] resolves with [true] when the probe
    [select 1] succeeds; when the probe fails it does not resolve with
    [false]: it rejects, with [false] as the reason. *)
Theorem validate_rejects_when_probe_fails
    (this : Executor) (client : Client) (err : JsError) :
  validate client None this
  = (Some (Fulfilled true), this, [DriverQuery client "select 1" []])
  /\ validate client (Some err) this
     = (Some (Rejected false), this, [DriverQuery client "select 1" []]).
Proof. by split. Qed.

(** Counterexample to C7 as stated.  An object holds the error of a refused
    connection; the pool reports a creation error whose message is empty; the
    object still holds the old error, not the reported one. *)
Lemma factory_error_always_stored_refuted :
  let this' :=
    fst (perform (Callback (FactoryCreateError EmptyString))
           Samples.troubled) in
  _onErrorMessage Samples.troubled = Some Samples.refused
  /\ _onErrorMessage this' = Some Samples.refused
  /\ _onErrorMessage this' <> Some EmptyString.
Proof. vm_compute. repeat split. discriminate. Qed.

(** C7, amended.  Once the driver has answered a call of [query] with
    results no factory error is stored, whatever was stored before and
    whatever the pool reported during the call, and the call resolves with
    those results (provided no listener throws on its events); and when the
    pool reports a creation error, its message is stored if it is truthy (not
    empty), and otherwise what was stored stays. *)
Theorem factory_error_cleared_and_stored :
  (forall this sql parms cbs client started finished meanwhile results rel,
      let w := {| acquired := {| during := cbs; outcome := Fulfilled client |};
                  executed := {| started := started; finished := finished;
                                 meanwhile := meanwhile;
                                 answer := inr results |};
                  released := rel |} in
      _onErrorMessage (snd (fst (query sql parms w this))) = None
      /\ (listeners_return this
            (query_events this client sql (default [] parms)
               (executed w) results) = true ->
          fst (fst (query sql parms w this)) = Some (Fulfilled results)))
  /\ (forall this err,
         _onErrorMessage
           (fst (perform (Callback (FactoryCreateError err)) this))
         = if truthy (Str err) then Some err else _onErrorMessage this).
Proof.
  split.
  - intros this sql parms cbs client started finished meanwhile results rel w.
    destruct (run_interleaved_inv (E := JsError) cbs this)
      as (this1 & t1 & H1 & Hc1 & _).
    destruct (run_interleaved_inv (E := JsError) meanwhile this1)
      as (this2 & t2 & H2 & Hc2 & _).
    pose proof (same_configuration_trans _ _ _ Hc1 Hc2) as Hc.
    rewrite (query_answered sql parms w this this1 t1 H1
               client this2 t2 eq_refl H2 results eq_refl).
    cbn -[query_events]. split; [reflexivity|].
    rewrite (query_events_same this this2 _ _ _ _ _ Hc).
    rewrite (listeners_return_same this this2 _ Hc).
    by intros ->.
  - intros this err. cbn [perform]. chain_unfold.
    by destruct (truthy (Str err)).
Qed.

Lemma factory_error_cleared_and_stored_witness :
  fst (fst (query "select now()" None Samples.succeeds Samples.troubled))
  = Some (Fulfilled Samples.now_row).
Proof.
  apply (proj1 factory_error_cleared_and_stored Samples.troubled
           "select now()" None [ByPool (FactoryCreate Samples.client None)]
           Samples.client 10 12 [] Samples.now_row (Fulfilled tt)).
  reflexivity.
Defined.

(** C8.  The constructor stores the [emitControl] it is given (an empty
    object when none is given) and no operation changes it afterwards; when
    its four gates are falsy, as they are by default, no sequence of
    operations emits any event; when its [query] gate is falsy, no sequence of
    operations emits a [query] event. *)
Theorem emitControl_fixed_and_obeyed
    (dbConfig poolConfig : gmap string value)
    (emitControl : option (gmap string value)) (ops : list operation) :
  let this0 := constructor dbConfig poolConfig emitControl in
  _emitControl this0 = default ∅ emitControl
  /\ (forall op this, _emitControl (fst (perform op this)) = _emitControl this)
  /\ _emitControl (fst (run ops this0)) = _emitControl this0
  /\ (gates_off (_emitControl this0) = true ->
      Forall (fun a => is_emit a = false) (snd (run ops this0)))
  /\ (emitControl = None ->
      Forall (fun a => is_emit a = false) (snd (run ops this0)))
  /\ (truthy (get (_emitControl this0) "query") = false ->
      Forall (fun a => emits_query a = false) (snd (run ops this0))).
Proof.
  intros this0.
  destruct (run_inv ops this0) as (this' & t & Hrun & (Hec & _) & Hoff & Hq).
  rewrite Hrun. cbn [fst snd].
  split; [reflexivity|].
  split.
  { intros op this.
    destruct (perform_inv op this) as (? & ? & -> & (Hop & _) & _). by cbn. }
  split; [by symmetry|].
  split; [exact Hoff|].
  split; [|exact Hq].
  intros ->. by apply Hoff.
Qed.

Lemma emitControl_fixed_and_obeyed_witness :
  gates_off (_emitControl Samples.plain) = true
  /\ Forall (fun a => is_emit a = false)
       (snd (run [Callback (FactoryCreate Samples.client None);
                  Query "select now()" None Samples.succeeds;
                  Close Samples.closes]
               Samples.plain))
  /\ Forall (fun a => emits_query a = false)
       (snd (run [Query "select now()" None Samples.succeeds] Samples.plain)).
Proof.
  split; [reflexivity|]. split.
  - apply (emitControl_fixed_and_obeyed ∅ ∅ None). reflexivity.
  - apply (emitControl_fixed_and_obeyed ∅ ∅ None). reflexivity.
Defined.

(** *** Replacing a character *)

Lemma split_on_not_nil (c : ascii) (s : string) : split_on c s <> [].
Proof.
  induction s as [|a s IH]; cbn; [discriminate|].
  destruct (Ascii.eqb a c); [discriminate|].
  by destruct (split_on c s).
Qed.

(** The scan of [replace] computes what split-and-join describes. *)
Lemma replace_global_every (c : ascii) (r : string) (s : string) :
  replace_global c r s = replace_every c r s.
Proof.
  unfold replace_every. induction s as [|a s IH]; cbn; [reflexivity|].
  pose proof (split_on_not_nil c s) as Hne.
  destruct (Ascii.eqb a c).
  - rewrite IH. destruct (split_on c s) as [|piece pieces]; [done|reflexivity].
  - rewrite IH. destruct (split_on c s) as [|piece [|piece' pieces]];
      [done|reflexivity|reflexivity].
Qed.

Lemma replace_global_absent (c : ascii) (r : string) (s : string) :
  occurrences c s = 0%nat -> replace_global c r s = s.
Proof.
  induction s as [|a s IH]; cbn; [reflexivity|].
  destruct (Ascii.eqb a c); [discriminate|].
  intros H. by rewrite IH.
Qed.

Lemma typeof_string (x : value) :
  typeof x = "string" <-> exists s, x = Str s.
Proof.
  split; [|by intros [s ->]].
  destruct x; cbn; try discriminate. eauto.
Qed.

(** C9.  On a value that is not a string both helpers return the value
    itself.  On a string, [escapeDoubleQuotes] returns it with every double
    quote replaced by a backslash and a double quote, and
    [escapeSingleQuotes] returns it with every single quote replaced by two
    single quotes; a string without the quote comes back equal. *)
Theorem escape_helpers (x : value) :
  (typeof x <> "string" ->
     escapeDoubleQuotes x = x /\ escapeSingleQuotes x = x)
  /\ (forall s, x = Str s ->
        escapeDoubleQuotes x
        = Str (replace_every double_quote
                 (String backslash (String double_quote EmptyString)) s)
        /\ escapeSingleQuotes x
           = Str (replace_every single_quote
                    (String single_quote (String single_quote EmptyString)) s))
  /\ (forall s, x = Str s ->
        (occurrences double_quote s = 0%nat -> escapeDoubleQuotes x = x)
        /\ (occurrences single_quote s = 0%nat -> escapeSingleQuotes x = x)).
Proof.
  split; [|split].
  - intros Hx. unfold escapeDoubleQuotes, escapeSingleQuotes.
    destruct (String.eqb_spec (typeof x) "string") as [Heq|_]; [done|].
    by split.
  - intros s ->. unfold escapeDoubleQuotes, escapeSingleQuotes. cbn.
    by rewrite !replace_global_every.
  - intros s ->. unfold escapeDoubleQuotes, escapeSingleQuotes. cbn.
    split; intros H; by rewrite replace_global_absent.
Qed.

Lemma escape_helpers_witness :
  (escapeDoubleQuotes (Obj 7) = Obj 7 /\ escapeSingleQuotes (Obj 7) = Obj 7)
  /\ escapeSingleQuotes (Str "it's")
     = Str (replace_every single_quote
              (String single_quote (String single_quote EmptyString)) "it's")
  /\ escapeDoubleQuotes (Str "nodoublequotes") = Str "nodoublequotes".
Proof.
  split; [|split].
  - apply (escape_helpers (Obj 7)). discriminate.
  - apply (escape_helpers (Str "it's") : _ /\ _). reflexivity.
  - apply (escape_helpers (Str "nodoublequotes")) with (s := "nodoublequotes");
      reflexivity.
Defined.

(** The cases of the repository's tests. *)
Example escapeDoubleQuotes_test :
  escapeDoubleQuotes
    (Str ("quoted" +:+ String double_quote "likethis"
          +:+ String double_quote EmptyString))
  = Str ("quoted" +:+ String backslash (String double_quote "likethis")
         +:+ String backslash (String double_quote EmptyString)).
Proof. reflexivity. Qed.

Example escapeSingleQuotes_test :
  escapeSingleQuotes (Str "quoted'likethis'") = Str "quoted''likethis''".
Proof. reflexivity. Qed.

(** C10.  When [poolConfig.acquireTimeoutMillis] is falsy -- absent, [0],
    [null], NaN, ... -- the pool is created with [acquireTimeoutMillis] set to
    1000 and the other options as given; so the pool is never created with a
    falsy acquire timeout, and a given [0] is replaced by 1000. *)
Theorem constructor_defaults_acquireTimeoutMillis
    (dbConfig poolConfig : gmap string value)
    (emitControl : option (gmap string value)) :
  let created :=
    pool_config (_pool (constructor dbConfig poolConfig emitControl)) in
  (truthy (get poolConfig "acquireTimeoutMillis") = false ->
     created !! "acquireTimeoutMillis" = Some (Num 1000)
     /\ forall k, k <> "acquireTimeoutMillis" -> created !! k = poolConfig !! k)
  /\ (poolConfig !! "acquireTimeoutMillis" = Some (Num 0) ->
      created !! "acquireTimeoutMillis" = Some (Num 1000))
  /\ (truthy (get poolConfig "acquireTimeoutMillis") = true ->
      created = poolConfig)
  /\ truthy (get created "acquireTimeoutMillis") = true.
Proof.
  cbn. split; [|split; [|split]].
  - intros ->. cbn. split; [apply lookup_insert_eq|].
    intros k Hk. by apply lookup_insert_ne.
  - intros H0. unfold get at 1. rewrite H0. cbn. apply lookup_insert_eq.
  - by intros ->.
  - destruct (truthy (get poolConfig "acquireTimeoutMillis")) eqn:Ht; cbn.
    + exact Ht.
    + unfold get. by rewrite lookup_insert_eq.
Qed.

Lemma constructor_defaults_acquireTimeoutMillis_witness :
  pool_config
    (_pool (constructor ∅ {["acquireTimeoutMillis" := Num 0]} None))
  !! "acquireTimeoutMillis" = Some (Num 1000).
Proof.
  apply (constructor_defaults_acquireTimeoutMillis
           ∅ {["acquireTimeoutMillis" := Num 0]} None).
  reflexivity.
Defined.

(* ===================================================================== *)
(** ** Further properties of the class *)
(* ===================================================================== *)

(** *** The callbacks of the pool, one after the other *)

Lemma run_callbacks_app {E} (cbs1 cbs2 : list callback) (this : Executor) :
  run_callbacks (E := E) (cbs1 ++ cbs2) this
  = let '(_, this1, t1) := run_callbacks (E := E) cbs1 this in
    let '(o, this2, t2) := run_callbacks (E := E) cbs2 this1 in
    (o, this2, t1 ++ t2).
Proof.
  revert this; induction cbs1 as [|cb cbs1 IH]; intros this.
  - cbn. unfold resolve. by destruct (run_callbacks cbs2 this) as [[? ?] ?].
  - cbn [app run_callbacks]. unfold then_.
    destruct (run_callback_inv (E := E) cb this) as (this1 & t1 & -> & _).
    rewrite IH.
    destruct (run_callbacks_inv (E := E) cbs1 this1)
      as (this2 & t2 & -> & _).
    destruct (run_callbacks_inv (E := E) cbs2 this2) as (this3 & t3 & -> & _).
    f_equal. trace_eq.
Qed.

Lemma run_callback_events {E} (cb : callback) (this : Executor) :
  List.filter is_emit (snd (run_callback (E := E) cb this))
  = lifecycle_event (_emitControl this) cb.
Proof.
  destruct cb as [client [err|] | client [err|] | client [err|] | err];
    chain_unfold; unfold lifecycle_event; case_truthy; cbn; case_listeners;
    reflexivity.
Qed.

(** X1.  Whatever callbacks the pool runs on the object, the events they
    emit are, in order, one [connect] event per connection the factory opened
    and one [disconnect] event per connection it closed, each with the
    process id of its client and only where its gate is truthy; a failed
    connect, a failed end and a validation emit nothing. *)
Theorem callbacks_emit_lifecycle_events
    (cbs : list callback) (this : Executor) :
  List.filter is_emit (snd (run_callbacks (E := JsError) cbs this))
  = flat_map (lifecycle_event (_emitControl this)) cbs.
Proof.
  revert this; induction cbs as [|cb cbs IH]; intros this; [reflexivity|].
  cbn [run_callbacks flat_map]. unfold then_ at 1.
  pose proof (run_callback_events (E := JsError) cb this) as Hcb.
  destruct (run_callback_inv (E := JsError) cb this)
    as (this1 & t1 & Heq & (Hec & _) & _).
  rewrite Heq in Hcb. rewrite Heq. cbn [snd] in Hcb.
  specialize (IH this1). rewrite <- Hec in IH.
  destruct (run_callbacks cbs this1) as [[o this2] t2]. cbn [snd] in *.
  by rewrite List.filter_app, Hcb, IH.
Qed.

Lemma run_callback_quiet {E} (cb : callback) (this : Executor) :
  reports cb = false ->
  snd (fst (run_callback (E := E) cb this)) = this.
Proof.
  destruct cb as [client [err|] | client [err|] | client [err|] | err];
    cbn [reports]; intros Hquiet; chain_unfold; try rewrite Hquiet;
    case_truthy; cbn; case_listeners; reflexivity.
Qed.

Lemma run_callbacks_quiet {E} (cbs : list callback) (this : Executor) :
  Forall (fun cb => reports cb = false) cbs ->
  snd (fst (run_callbacks (E := E) cbs this)) = this.
Proof.
  induction 1 as [|cb cbs Hcb _ IH]; [reflexivity|].
  cbn [run_callbacks]. unfold then_.
  pose proof (run_callback_quiet (E := E) cb this Hcb) as Hthis.
  destruct (run_callback_inv (E := E) cb this) as (this1 & t1 & Heq & _).
  rewrite Heq in Hthis |- *. cbn in Hthis. subst this1.
  by destruct (run_callbacks cbs this) as [[o this2] t2].
Qed.

(** X2.  Of the callbacks of the pool only a report of a creation error with
    a message that is not empty changes the object: the factory's [create],
    [validate] and [destroy] leave every field as it is (a failed [create]
    stores nothing by itself), and after any callbacks the stored error is
    the last such report, the configuration being untouched. *)
Theorem callbacks_store_last_report (cbs : list callback) (this : Executor) :
  let this' := snd (fst (run_callbacks (E := JsError) cbs this)) in
  (Forall (fun cb => reports cb = false) cbs -> this' = this)
  /\ (forall pre err post,
         cbs = pre ++ FactoryCreateError err :: post ->
         truthy (Str err) = true ->
         Forall (fun cb => reports cb = false) post ->
         _onErrorMessage this' = Some err
         /\ same_configuration this this').
Proof.
  cbn zeta. split; [apply run_callbacks_quiet|].
  intros pre err post -> Herr Hpost.
  destruct (run_callbacks_inv (E := JsError) pre this)
    as (this1 & t1 & H1 & Hc1 & _).
  destruct (run_callbacks_inv (E := JsError) post
              (set_onErrorMessage (Some err) this1))
    as (this2 & t2 & H2 & _).
  pose proof (run_callbacks_quiet (E := JsError) post
                (set_onErrorMessage (Some err) this1) Hpost) as Hquiet.
  rewrite H2 in Hquiet. cbn in Hquiet. subst this2.
  assert (Hrun : run_callbacks (E := JsError)
                   (pre ++ FactoryCreateError err :: post) this
                 = (Some (Fulfilled tt), set_onErrorMessage (Some err) this1,
                    t1 ++ t2)).
  { rewrite run_callbacks_app, H1. cbn [run_callbacks run_callback].
    chain_unfold. rewrite Herr, H2. reflexivity. }
  rewrite Hrun. cbn [fst snd]. split; [reflexivity|].
  eauto using same_configuration_trans, same_configuration_set.
Qed.

Lemma callbacks_store_last_report_witness :
  _onErrorMessage
    (snd (fst (run_callbacks (E := JsError)
                 [FactoryCreateError "first";
                  FactoryCreateError Samples.refused;
                  FactoryCreate Samples.client (Some Samples.boom);
                  FactoryCreateError EmptyString]
                 Samples.plain)))
  = Some Samples.refused.
Proof.
  apply (callbacks_store_last_report
           [FactoryCreateError "first";
            FactoryCreateError Samples.refused;
            FactoryCreate Samples.client (Some Samples.boom);
            FactoryCreateError EmptyString]
           Samples.plain)
    with (pre := [FactoryCreateError "first"])
         (post := [FactoryCreate Samples.client (Some Samples.boom);
                   FactoryCreateError EmptyString]).
  - reflexivity.
  - reflexivity.
  - repeat constructor.
Defined.

(** X3.  A call of [query] that succeeds -- it resolves with the results of
    the driver -- emits at most one [query] event and at most one [results]
    event, the [query] event first, each exactly when its gate is truthy;
    they carry the statement, the parameters and the process id of the
    client, and the [results] event the rows of the driver's result and the
    difference of the two clock readings, which is not negative when the
    clock did not go back. *)
Theorem successful_query_events
    (this : Executor) (sql : string) (parms : option (list value))
    (cbs : list interleaved) (client : Client) (started finished : Z)
    (meanwhile : list interleaved) (results : Results)
    (rel : settled JsError unit) :
  let w := {| acquired := {| during := cbs; outcome := Fulfilled client |};
              executed := {| started := started; finished := finished;
                             meanwhile := meanwhile;
                             answer := inr results |};
              released := rel |} in
  let t := snd (query sql parms w this) in
  fst (fst (query sql parms w this)) = Some (Fulfilled results) ->
  List.filter emits_query_or_results t
  = (if truthy (get (_emitControl this) "query")
     then [Emit (EvQuery sql (default [] parms) (processID client))]
     else [])
    ++ (if truthy (get (_emitControl this) "results")
        then [Emit (EvResults (finished - started) sql (default [] parms)
                      (rows results) (processID client))]
        else [])
  /\ (started <= finished ->
      forall e s p d pid, In (Emit (EvResults e s p d pid)) t -> 0 <= e).
Proof.
  intros w t Hresolved.
  destruct (run_interleaved_inv (E := JsError) cbs this)
    as (this1 & t1 & H1 & Hc1 & Hf1 & _).
  destruct (run_interleaved_inv (E := JsError) meanwhile this1)
    as (this2 & t2 & H2 & Hc2 & Hf2 & _).
  pose proof (same_configuration_trans _ _ _ Hc1 Hc2) as Hc.
  apply factory_emits_no_query_or_results in Hf1, Hf2.
  pose proof (query_answered sql parms w this this1 t1 H1
                client this2 t2 eq_refl H2 results eq_refl) as Hq.
  cbn zeta in Hq. rewrite Hq in Hresolved. cbn [fst] in Hresolved.
  destruct (listeners_return this2 _) eqn:Hret in Hq; [|by rewrite Hret in *].
  rewrite (until_throw_all _ _ Hret) in Hq.
  rewrite (query_events_same this this2 _ _ _ _ _ Hc) in Hq.
  assert (Hevents :
    List.filter emits_query_or_results t
    = query_events this client sql (default [] parms) (executed w) results).
  { subst t. rewrite Hq. cbn [snd]. rewrite !List.filter_app.
    rewrite (filter_none _ _ Hf1), (filter_none _ _ Hf2).
    unfold query_events. case_truthy; reflexivity. }
  unfold query_events in Hevents. cbn in Hevents.
  split; [exact Hevents|].
  intros Hclock e s p d pid Hin.
  assert (Hin' : In (Emit (EvResults e s p d pid))
                   (List.filter emits_query_or_results t)).
  { apply List.filter_In. by split. }
  rewrite Hevents in Hin'.
  apply in_app_or in Hin' as [Hin'|Hin'];
    destruct (truthy _) in Hin'; cbn in Hin';
    repeat match goal with
      | H : _ \/ _ |- _ => destruct H
      | H : False |- _ => destruct H
      | H : Emit _ = Emit _ |- _ => injection H as H
      end; try discriminate.
  match goal with H : _ = e |- _ => rewrite <- H end.
  by apply Z.le_0_sub.
Qed.

Lemma successful_query_events_witness : 0 <= 12 - 10.
Proof.
  apply (proj2 (successful_query_events Samples.verbose "select now()" None
                  [ByPool (FactoryCreate Samples.client None)] Samples.client
                  10 12 [] Samples.now_row (Fulfilled tt) eq_refl))
    with (s := "select now()") (p := []) (d := [Obj 2]) (pid := 6872).
  - discriminate.
  - vm_compute. tauto.
Defined.

(** *** Every event passes its own gate *)

Lemma run_callback_gated {E} (cb : callback) (this : Executor) :
  Forall (fun a => gate_open (_emitControl this) a = true)
    (snd (run_callback (E := E) cb this)).
Proof.
  destruct cb as [client [err|] | client [err|] | client [err|] | err];
    chain_unfold; case_truthy; cbn; case_listeners;
    repeat constructor; assumption.
Qed.

Lemma run_callbacks_gated {E} (cbs : list callback) (this : Executor) :
  Forall (fun a => gate_open (_emitControl this) a = true)
    (snd (run_callbacks (E := E) cbs this)).
Proof.
  revert this; induction cbs as [|cb cbs IH]; intros this; [constructor|].
  cbn [run_callbacks]. unfold then_.
  pose proof (run_callback_gated (E := E) cb this) as Hcb.
  destruct (run_callback_inv (E := E) cb this)
    as (this1 & t1 & Heq & (Hec & _) & _).
  rewrite Heq in Hcb |- *. specialize (IH this1). rewrite <- Hec in IH.
  destruct (run_callbacks cbs this1) as [[o this2] t2].
  cbn [snd] in *. destruct o as [[]|]; by apply Forall_app.
Qed.

Lemma run_interleaved_gated {E} (l : list interleaved) (this : Executor) :
  Forall (fun a => gate_open (_emitControl this) a = true)
    (snd (run_interleaved (E := E) l this)).
Proof.
  revert this; induction l as [|i l IH]; intros this; [constructor|].
  cbn [run_interleaved]. unfold then_.
  assert (Hi : Forall (fun a => gate_open (_emitControl this) a = true)
                 (snd (run_one (E := E) i this))).
  { destruct i as [cb|]; [apply run_callback_gated|constructor]. }
  destruct (run_one_inv (E := E) i this)
    as (this1 & t1 & Heq & (Hec & _) & _).
  rewrite Heq in Hi |- *. specialize (IH this1). rewrite <- Hec in IH.
  destruct (run_interleaved l this1) as [[o this2] t2].
  cbn [snd] in *. destruct o as [[]|]; by apply Forall_app.
Qed.

Lemma query_events_gated this client sql parms x results :
  Forall (fun a => gate_open (_emitControl this) a = true)
    (query_events this client sql parms x results).
Proof.
  unfold query_events. case_truthy; repeat constructor; assumption.
Qed.

Lemma perform_gated (op : operation) (this : Executor) :
  Forall (fun a => gate_open (_emitControl this) a = true)
    (snd (perform op this)).
Proof.
  destruct op as [sql parms w | w | timeout l | | name listener | cb];
    cbn [perform].
  - pose proof (run_interleaved_gated (E := JsError) (during (acquired w))
                  this) as Hg1.
    destruct (run_interleaved_inv (E := JsError) (during (acquired w)) this)
      as (this1 & t1 & H1 & (Hec1 & _) & _).
    pose proof (run_interleaved_gated (E := JsError) (meanwhile (executed w))
                  this1) as Hg2.
    destruct (run_interleaved_inv (E := JsError) (meanwhile (executed w))
                this1)
      as (this2 & t2 & H2 & (Hec2 & _) & _).
    rewrite H1 in Hg1. rewrite H2, <- Hec1 in Hg2. cbn [snd] in Hg1, Hg2.
    destruct (outcome (acquired w)) as [client|[err|err]] eqn:Ha;
      [destruct (answer (executed w)) as [err|results] eqn:Hx| |].
    + rewrite (query_execution_failed sql parms w this this1 t1 H1
                 client this2 t2 Ha H2 err Hx).
      cbn [snd]. forall_parts.
    + rewrite (query_answered sql parms w this this1 t1 H1
                 client this2 t2 Ha H2 results Hx).
      cbn [snd]. forall_parts.
      * apply until_throw_Forall. rewrite Hec1, Hec2.
        apply query_events_gated.
      * destruct (listeners_return _ _); repeat constructor.
    + rewrite (query_acquire_rejected sql parms w this this1 t1 H1 err Ha).
      cbn [snd]. forall_parts.
    + rewrite (query_acquire_threw sql parms w this err Ha).
      cbn [snd]. forall_parts.
  - pose proof (run_interleaved_gated (E := JsError) (waited w) this) as Hg1.
    destruct (run_interleaved_inv (E := JsError) (waited w) this)
      as (this1 & t1 & H1 & (Hec1 & _) & _).
    pose proof (run_interleaved_gated (E := JsError) (during (drained w))
                  this1) as Hg2.
    destruct (run_interleaved_inv (E := JsError) (during (drained w)) this1)
      as (this2 & t2 & H2 & (Hec2 & _) & _).
    pose proof (run_interleaved_gated (E := JsError) (during (cleared w))
                  this2) as Hg3.
    destruct (run_interleaved_inv (E := JsError) (during (cleared w)) this2)
      as (this3 & t3 & H3 & _).
    rewrite H1 in Hg1. rewrite H2, <- Hec1 in Hg2.
    rewrite H3, <- Hec2, <- Hec1 in Hg3. cbn [snd] in Hg1, Hg2, Hg3.
    rewrite (close_paths w this this1 this2 this3 t1 t2 t3 H1 H2 H3).
    destruct (outcome (drained w)) as [[]|err];
      [destruct (outcome (cleared w)) as [[]|err]|];
      cbn [snd]; forall_parts.
  - pose proof (run_interleaved_gated (E := JsError) l this) as Hg.
    destruct (run_interleaved_inv (E := JsError) l this)
      as (this1 & t1 & H1 & _).
    rewrite H1 in Hg. unfold waitFunction. chain_unfold. rewrite H1.
    cbn in *. forall_parts.
  - constructor.
  - constructor.
  - pose proof (run_callback_gated (E := JsError) cb this) as Hg.
    by destruct (run_callback cb this) as [[o this1] t1].
Qed.

(** X4.  Whatever operations follow, an event is emitted only when the gate
    of its own name is truthy in the [emitControl] the object holds: the four
    gates work independently of one another. *)
Theorem events_pass_their_own_gate
    (ops : list operation) (this : Executor) (e : Event) :
  In (Emit e) (snd (run ops this)) ->
  truthy (get (_emitControl this) (event_name e)) = true.
Proof.
  assert (Hall : Forall (fun a => gate_open (_emitControl this) a = true)
                   (snd (run ops this))).
  { revert this; induction ops as [|op ops IH]; intros this; [constructor|].
    cbn [run].
    pose proof (perform_gated op this) as Hop.
    destruct (perform_inv op this) as (this1 & t1 & Heq & (Hec & _) & _).
    rewrite Heq in Hop |- *. specialize (IH this1). rewrite <- Hec in IH.
    destruct (run ops this1) as [this2 t2]. cbn [snd] in *.
    by apply Forall_app. }
  intros Hin. rewrite Forall_forall in Hall.
  apply (Hall (Emit e)). by apply list_elem_of_In.
Qed.

Lemma events_pass_their_own_gate_witness :
  truthy (get (_emitControl Samples.verbose) "results") = true.
Proof.
  apply (events_pass_their_own_gate
           [Query "select now()" None Samples.succeeds] Samples.verbose
           (EvResults 2 "select now()" [] [Obj 2] 6872)).
  vm_compute. tauto.
Defined.

(** *** What stays of the constructor's work *)

(** X5.  The [pool] accessor returns, after any operations, the pool the
    constructor created: made from the factory over [dbConfig], and with an
    acquire timeout that is truthy. *)
Theorem pool_accessor_stable
    (dbConfig poolConfig : gmap string value)
    (emitControl : option (gmap string value)) (ops : list operation) :
  let this := fst (run ops (constructor dbConfig poolConfig emitControl)) in
  pool this = pool (constructor dbConfig poolConfig emitControl)
  /\ factory_config (pool this) = dbConfig
  /\ truthy (get (pool_config (pool this)) "acquireTimeoutMillis") = true.
Proof.
  intros this. subst this.
  destruct (run_inv ops (constructor dbConfig poolConfig emitControl))
    as (this' & t & -> & (_ & _ & Hpool) & _).
  cbn [fst]. unfold pool. rewrite <- Hpool. split; [reflexivity|].
  split; [reflexivity|]. cbn.
  destruct (truthy (get poolConfig "acquireTimeoutMillis")) eqn:Ht; cbn.
  - exact Ht.
  - unfold get. by rewrite lookup_insert_eq.
Qed.

(** *** The stored factory error *)

Lemma run_callback_error_not_empty {E} (cb : callback) (this : Executor) :
  error_not_empty this ->
  error_not_empty (snd (fst (run_callback (E := E) cb this))).
Proof.
  unfold error_not_empty.
  destruct cb as [client [err|] | client [err|] | client [err|] | err];
    chain_unfold; case_truthy; cbn; case_listeners; try done.
  intros _ [= ->]. discriminate.
Qed.

Lemma run_interleaved_error_not_empty {E} (l : list interleaved)
    (this : Executor) :
  error_not_empty this ->
  error_not_empty (snd (fst (run_interleaved (E := E) l this))).
Proof.
  revert this; induction l as [|i l IH]; intros this Hthis; [done|].
  cbn [run_interleaved]. unfold then_.
  assert (Hi : error_not_empty (snd (fst (run_one (E := E) i this)))).
  { destruct i as [cb|]; [by apply run_callback_error_not_empty|done]. }
  destruct (run_one_inv (E := E) i this) as (this1 & t1 & Heq & _).
  rewrite Heq in Hi |- *. cbn [fst snd] in Hi. specialize (IH this1 Hi).
  by destruct (run_interleaved l this1) as [[[[]|] this2] t2].
Qed.

Lemma perform_error_not_empty (op : operation) (this : Executor) :
  error_not_empty this -> error_not_empty (fst (perform op this)).
Proof.
  intros Hthis.
  destruct op as [sql parms w | w | timeout l | | name listener | cb];
    cbn [perform].
  - pose proof (run_interleaved_error_not_empty (E := JsError)
                  (during (acquired w)) this Hthis) as Hn1.
    destruct (run_interleaved_inv (E := JsError) (during (acquired w)) this)
      as (this1 & t1 & H1 & _).
    rewrite H1 in Hn1. cbn [fst snd] in Hn1.
    pose proof (run_interleaved_error_not_empty (E := JsError)
                  (meanwhile (executed w)) this1 Hn1) as Hn2.
    destruct (run_interleaved_inv (E := JsError) (meanwhile (executed w))
                this1)
      as (this2 & t2 & H2 & _).
    rewrite H2 in Hn2. cbn [fst snd] in Hn2.
    destruct (outcome (acquired w)) as [client|[err|err]] eqn:Ha;
      [destruct (answer (executed w)) as [err|results] eqn:Hx| |].
    + by rewrite (query_execution_failed sql parms w this this1 t1 H1
                    client this2 t2 Ha H2 err Hx).
    + by rewrite (query_answered sql parms w this this1 t1 H1
                    client this2 t2 Ha H2 results Hx).
    + by rewrite (query_acquire_rejected sql parms w this this1 t1 H1 err Ha).
    + by rewrite (query_acquire_threw sql parms w this err Ha).
  - pose proof (run_interleaved_error_not_empty (E := JsError)
                  (waited w) this Hthis) as Hn1.
    destruct (run_interleaved_inv (E := JsError) (waited w) this)
      as (this1 & t1 & H1 & _).
    rewrite H1 in Hn1. cbn [fst snd] in Hn1.
    pose proof (run_interleaved_error_not_empty (E := JsError)
                  (during (drained w)) this1 Hn1) as Hn2.
    destruct (run_interleaved_inv (E := JsError) (during (drained w)) this1)
      as (this2 & t2 & H2 & _).
    rewrite H2 in Hn2. cbn [fst snd] in Hn2.
    pose proof (run_interleaved_error_not_empty (E := JsError)
                  (during (cleared w)) this2 Hn2) as Hn3.
    destruct (run_interleaved_inv (E := JsError) (during (cleared w)) this2)
      as (this3 & t3 & H3 & _).
    rewrite H3 in Hn3. cbn [fst snd] in Hn3.
    rewrite (close_paths w this this1 this2 this3 t1 t2 t3 H1 H2 H3).
    by destruct (outcome (drained w)) as [[]|err];
      [destruct (outcome (cleared w)) as [[]|err]|].
  - pose proof (run_interleaved_error_not_empty (E := JsError) l this Hthis)
      as Hn.
    destruct (run_interleaved_inv (E := JsError) l this)
      as (this1 & t1 & H1 & _).
    rewrite H1 in Hn. unfold waitFunction. chain_unfold. by rewrite H1.
  - exact Hthis.
  - exact Hthis.
  - pose proof (run_callback_error_not_empty (E := JsError) cb this Hthis)
      as Hn.
    by destruct (run_callback cb this) as [[o this1] t1].
Qed.

(** X6.  On an object built by the constructor the stored factory error is,
    after any operations, either absent or a message that is not empty. *)
Theorem stored_error_never_empty
    (dbConfig poolConfig : gmap string value)
    (emitControl : option (gmap string value)) (ops : list operation) :
  _onErrorMessage (fst (run ops (constructor dbConfig poolConfig emitControl)))
  <> Some EmptyString.
Proof.
  assert (Hrun : forall this, error_not_empty this ->
                              error_not_empty (fst (run ops this))).
  { induction ops as [|op ops IH]; intros this Hthis; [exact Hthis|].
    cbn [run].
    pose proof (perform_error_not_empty op this Hthis) as Hop.
    destruct (perform op this) as [this1 t1]. specialize (IH this1 Hop).
    by destruct (run ops this1) as [this2 t2]. }
  apply Hrun. discriminate.
Qed.

(** *** Calls that leave the object as it is *)

Lemma run_interleaved_quiet {E} (l : list interleaved) (this : Executor) :
  Forall (fun i => writes_error i = false) l ->
  exists t, run_interleaved (E := E) l this = (Some (Fulfilled tt), this, t).
Proof.
  induction 1 as [|i l Hi _ IH]; [by exists []|].
  destruct IH as [t2 IH].
  destruct i as [cb|]; [|discriminate Hi]. cbn in Hi.
  pose proof (run_callback_quiet (E := E) cb this Hi) as Hthis.
  destruct (run_callback_inv (E := E) cb this) as (this1 & t1 & Heq & _).
  rewrite Heq in Hthis. cbn in Hthis. subst this1.
  exists (t1 ++ t2). cbn [run_interleaved run_one]. unfold then_.
  by rewrite Heq, IH.
Qed.

Lemma quiet_failure (this : Executor) (sql : string)
    (parms : option (list value)) (w : query_world) (err : JsError) :
  failure w = Some err ->
  quiet_query w ->
  exists t,
    query sql parms w this
    = (Some (Rejected (Message (rejection err this))), this, t).
Proof.
  unfold failure. intros Hfail [Hq1 Hq2].
  destruct (run_interleaved_quiet (E := JsError) _ this Hq1) as [t1 H1].
  destruct (run_interleaved_quiet (E := JsError) _ this Hq2) as [t2 H2].
  destruct (outcome (acquired w)) as [client|[err'|err']] eqn:Ha;
    [|injection Hfail as ->|discriminate].
  - destruct (answer (executed w)) as [err'|results] eqn:Hx; [|discriminate].
    injection Hfail as ->. eexists.
    exact (query_execution_failed sql parms w this this t1 H1
             client this t2 Ha H2 err Hx).
  - eexists.
    exact (query_acquire_rejected sql parms w this this t1 H1 err Ha).
Qed.

(** X7.  A call of [query] whose failure reaches its failure handler (the
    promise of [acquire] rejects, or the driver rejects the statement), while
    nothing writes the stored factory error -- the pool reports no creation
    error with a message and no other call of [query] succeeds -- changes no
    field of the object, in particular it does not clear the stored factory
    error, and rejects with the error that was stored when the call began. *)
Theorem failing_query_keeps_object
    (this : Executor) (sql : string) (parms : option (list value))
    (w : query_world) (err : JsError) :
  failure w = Some err ->
  quiet_query w ->
  fst (query sql parms w this)
  = (Some (Rejected (Message
             (message err +:+ ": "
              +:+ default EmptyString (_onErrorMessage this)))),
     this).
Proof.
  intros Hfail Hquiet.
  destruct (quiet_failure this sql parms w err Hfail Hquiet) as [t ->].
  cbn [fst]. by rewrite rejection_spelled.
Qed.

Lemma failing_query_keeps_object_witness :
  fst (query "select now()" None Samples.driver_fails Samples.troubled)
  = (Some (Rejected (Message
             (message Samples.boom +:+ ": "
              +:+ default EmptyString
                    (_onErrorMessage Samples.troubled)))),
     Samples.troubled).
Proof.
  apply (failing_query_keeps_object Samples.troubled "select now()" None
           Samples.driver_fails Samples.boom).
  - reflexivity.
  - split; constructor.
Defined.

(** X8.  How the stored error travels from call to call, for a failing call
    of [query] during which nothing writes the stored factory error (the pool
    reports no creation error with a message, no other call of [query]
    succeeds).  When the pool reported a creation error with a message just
    before it, the call rejects with its own message, a colon, a space and
    that report; when a call of [query] got its results just before it, the
    call rejects with its own message, a colon and a space only. *)
Theorem report_shows_until_a_query_succeeds
    (this : Executor) (sql : string) (parms : option (list value))
    (w : query_world) (err : JsError) :
  failure w = Some err ->
  quiet_query w ->
  (forall report,
      truthy (Str report) = true ->
      let reported :=
        fst (perform (Callback (FactoryCreateError report)) this) in
      fst (fst (query sql parms w reported))
      = Some (Rejected (Message (message err +:+ ": " +:+ report))))
  /\ (forall sql1 parms1 w1 client results,
         outcome (acquired w1) = Fulfilled client ->
         answer (executed w1) = inr results ->
         let served := snd (fst (query sql1 parms1 w1 this)) in
         fst (fst (query sql parms w served))
         = Some (Rejected (Message (message err +:+ ": ")))).
Proof.
  intros Hfail Hquiet. split.
  - intros report Hreport reported.
    destruct (quiet_failure reported sql parms w err Hfail Hquiet) as [t ->].
    cbn [fst]. rewrite rejection_spelled.
    subst reported. cbn [perform fst]. chain_unfold. by rewrite Hreport.
  - intros sql1 parms1 w1 client results Ha Hx served.
    destruct (quiet_failure served sql parms w err Hfail Hquiet) as [t ->].
    cbn [fst]. rewrite rejection_spelled. subst served.
    destruct (run_interleaved_inv (E := JsError) (during (acquired w1)) this)
      as (this1 & t1 & H1 & _).
    destruct (run_interleaved_inv (E := JsError) (meanwhile (executed w1))
                this1)
      as (this2 & t2 & H2 & _).
    by rewrite (query_answered sql1 parms1 w1 this this1 t1 H1
                  client this2 t2 Ha H2 results Hx).
Qed.

Lemma report_shows_until_a_query_succeeds_witness :
  fst (fst (query "select 2" None Samples.driver_fails
              (fst (perform (Callback (FactoryCreateError Samples.refused))
                      Samples.plain))))
  = Some (Rejected (Message
            (message Samples.boom +:+ ": " +:+ Samples.refused)))
  /\ fst (fst (query "select 2" None Samples.driver_fails
                 (snd (fst (query "select now()" None Samples.succeeds
                              Samples.troubled)))))
     = Some (Rejected (Message (message Samples.boom +:+ ": "))).
Proof.
  assert (Hquiet : quiet_query Samples.driver_fails) by (split; constructor).
  split.
  - apply (report_shows_until_a_query_succeeds Samples.plain "select 2" None
             Samples.driver_fails Samples.boom eq_refl Hquiet).
    reflexivity.
  - apply (proj2 (report_shows_until_a_query_succeeds Samples.troubled
                    "select 2" None Samples.driver_fails Samples.boom
                    eq_refl Hquiet)
             "select now()" None Samples.succeeds Samples.client
             Samples.now_row eq_refl eq_refl).
Defined.

(** X9.  [close] keeps no record of having been called: when nothing writes
    the stored factory error meanwhile (the pool reports no creation error
    with a message and no call of [query] in flight succeeds), the object is
    after [close], resolved or rejected, exactly what it was before, and a
    later call of [query] is not refused by the class but goes to the pool's
    [acquire] as any other. *)
Theorem close_keeps_object (this : Executor) (w : close_world) :
  quiet_close w ->
  snd (fst (close w this)) = this
  /\ forall sql parms qw,
       exists t,
         snd (query sql parms qw (snd (fst (close w this))))
         = PoolAcquire 0 :: t.
Proof.
  intros (Hq1 & Hq2 & Hq3).
  destruct (run_interleaved_quiet (E := JsError) _ this Hq1) as [t1 H1].
  destruct (run_interleaved_quiet (E := JsError) _ this Hq2) as [t2 H2].
  destruct (run_interleaved_quiet (E := JsError) _ this Hq3) as [t3 H3].
  assert (Hsame : snd (fst (close w this)) = this).
  { rewrite (close_paths w this this this this t1 t2 t3 H1 H2 H3).
    by destruct (outcome (drained w)) as [[]|err];
      [destruct (outcome (cleared w)) as [[]|err]|]. }
  split; [exact Hsame|].
  intros sql parms qw. rewrite Hsame.
  destruct (run_interleaved_inv (E := JsError) (during (acquired qw)) this)
    as (this1 & u1 & G1 & _).
  destruct (run_interleaved_inv (E := JsError) (meanwhile (executed qw))
              this1)
    as (this2 & u2 & G2 & _).
  destruct (outcome (acquired qw)) as [client|[err|err]] eqn:Ha;
    [destruct (answer (executed qw)) as [err|results] eqn:Hx| |].
  - rewrite (query_execution_failed sql parms qw this this1 u1 G1
               client this2 u2 Ha G2 err Hx). by eexists.
  - rewrite (query_answered sql parms qw this this1 u1 G1
               client this2 u2 Ha G2 results Hx). by eexists.
  - rewrite (query_acquire_rejected sql parms qw this this1 u1 G1 err Ha).
    by eexists.
  - rewrite (query_acquire_threw sql parms qw this err Ha). by eexists.
Qed.

Lemma close_keeps_object_witness :
  snd (fst (close Samples.closes Samples.verbose)) = Samples.verbose.
Proof.
  apply (close_keeps_object Samples.verbose Samples.closes).
  repeat split; repeat constructor.
Defined.

(** X10.  [waitFunction] has no way to reject: for every timeout, zero and
    negative ones too, it sets one timer with exactly that timeout and
    resolves; it calls neither the pool nor the driver. *)
Theorem waitFunction_always_resolves
    (timeout : Z) (cbs : list interleaved) (this : Executor) :
  fst (fst (waitFunction timeout cbs this)) = Some (Fulfilled tt)
  /\ List.filter is_step (snd (waitFunction timeout cbs this))
     = [SetTimeout timeout]
  /\ exists t, snd (waitFunction timeout cbs this) = SetTimeout timeout :: t.
Proof.
  destruct (run_interleaved_inv (E := JsError) cbs this)
    as (this1 & t1 & H1 & _ & Hf1 & _).
  apply from_factory_not_step in Hf1.
  unfold waitFunction. chain_unfold. rewrite H1. cbn.
  rewrite List.filter_app, (filter_none _ _ Hf1). repeat split. by eexists.
Qed.

(** *** A call that gets a client, when no listener throws *)

(** X17.  A call of [query] to which the pool hands a client [client], and
    during which no listener throws on the [query] or [results] event it
    emits, acquires once, executes the statement on [client], releases
    [client] once, and only then settles -- whatever the driver answers,
    whatever runs meanwhile and however the release settles: its trace is
    acquire, execution, release, settlement in this order, with no other call
    to the pool and no other settlement in between, and the promise resolves
    exactly when the driver answered with results. *)
Theorem query_acquire_execute_release_settle
    (this : Executor) (sql : string) (parms : option (list value))
    (cbs : list interleaved) (client : Client) (x : execution)
    (rel : settled JsError unit) :
  let w := {| acquired := {| during := cbs; outcome := Fulfilled client |};
              executed := x;
              released := rel |} in
  (forall results,
      answer x = inr results ->
      listeners_return this
        (query_events this client sql (default [] parms) x results) = true) ->
  exists (o : settled reason Results) (this' : Executor)
         (t1 t2 : list action),
    query sql parms w this
    = (Some o, this',
       [PoolAcquire 0] ++ t1
       ++ [DriverQuery client sql (default [] parms)] ++ t2
       ++ [PoolRelease (Some client); QuerySettled o])
    /\ Forall (fun a => is_step a = false) (t1 ++ t2)
    /\ List.filter is_step (snd (query sql parms w this))
       = [PoolAcquire 0; PoolRelease (Some client); QuerySettled o]
    /\ match answer x with
       | inr results => o = Fulfilled results
       | inl err => exists m, o = Rejected m
       end.
Proof.
  intros w Hreturn.
  destruct (run_interleaved_inv (E := JsError) cbs this)
    as (this1 & t1 & H1 & Hc1 & Hf1 & _).
  destruct (run_interleaved_inv (E := JsError) (meanwhile x) this1)
    as (this2 & t2 & H2 & Hc2 & Hf2 & _).
  pose proof (same_configuration_trans _ _ _ Hc1 Hc2) as Hc.
  apply from_factory_not_step in Hf1, Hf2.
  destruct (answer x) as [err|results] eqn:Hx.
  - pose proof (query_execution_failed sql parms w this this1 t1 H1
                  client this2 t2 eq_refl H2 err Hx) as Hq.
    exists (Rejected (Message (rejection err this2))), this2, t1, t2.
    split; [exact Hq|]. split; [by apply Forall_app|].
    split; [|by eexists].
    rewrite Hq. cbn. rewrite !List.filter_app.
    rewrite (filter_none _ _ Hf1). cbn. rewrite !List.filter_app.
    rewrite (filter_none _ _ Hf2). reflexivity.
  - pose proof (query_answered sql parms w this this1 t1 H1
                  client this2 t2 eq_refl H2 results Hx) as Hq.
    cbn zeta in Hq.
    rewrite (query_events_same this this2 _ _ _ _ _ Hc) in Hq.
    rewrite (listeners_return_same this this2 _ Hc) in Hq.
    specialize (Hreturn results eq_refl).
    assert (Hall : until_throw this2
                     (query_events this client sql (default [] parms)
                        (executed w) results)
                   = query_events this client sql (default [] parms)
                       (executed w) results).
    { apply until_throw_all. by rewrite (listeners_return_same this this2). }
    rewrite Hall in Hq.
    change (executed w) with x in Hq. rewrite Hreturn in Hq.
    pose proof (query_events_not_step this client sql (default [] parms)
                  x results) as He.
    exists (Fulfilled results), (set_onErrorMessage None this2), t1,
      (t2 ++ query_events this client sql (default [] parms) x results).
    split; [rewrite Hq; trace_eq|].
    split; [by rewrite !Forall_app|].
    split; [|reflexivity].
    rewrite Hq. cbn. rewrite !List.filter_app.
    rewrite (filter_none _ _ Hf1). cbn. rewrite !List.filter_app.
    rewrite (filter_none _ _ Hf2), (filter_none _ _ He). reflexivity.
Qed.

Lemma query_acquire_execute_release_settle_witness :
  exists (o : settled reason Results) (this' : Executor)
         (t1 t2 : list action),
    query "select now()" None Samples.succeeds Samples.verbose
    = (Some o, this',
       [PoolAcquire 0] ++ t1
       ++ [DriverQuery Samples.client "select now()" []] ++ t2
       ++ [PoolRelease (Some Samples.client); QuerySettled o]).
Proof.
  destruct (query_acquire_execute_release_settle Samples.verbose
              "select now()" None
              [ByPool (FactoryCreate Samples.client None)] Samples.client
              (executed Samples.succeeds) (Fulfilled tt))
    as (o & this' & t1 & t2 & Hq & _).
  - intros results _. reflexivity.
  - exists o, this', t1, t2. exact Hq.
Defined.

(** X18.  When the call of the pool's [acquire] itself throws, nothing
    else happens in the call of [query]: no callback runs, the failure
    handler is not reached, [release] is not called, and the call rejects
    at once with the very error that was thrown, not with a message built
    from it and the stored factory error; the object is unchanged. *)
Theorem query_rejects_with_what_acquire_throws
    (this : Executor) (sql : string) (parms : option (list value))
    (cbs : list interleaved) (err : JsError) (x : execution)
    (rel : settled JsError unit) :
  let w := {| acquired := {| during := cbs; outcome := Rejected (Throws err) |};
              executed := x;
              released := rel |} in
  query sql parms w this
  = (Some (Rejected (Raised err)), this,
     [PoolAcquire 0; QuerySettled (Rejected (Raised err))]).
Proof. intros w. by apply query_acquire_threw. Qed.
(* ===================================================================== *)
(** ** Further properties of the escape helpers *)
(* ===================================================================== *)

Lemma append_nil (s : string) : EmptyString +:+ s = s.
Proof. reflexivity. Qed.

Lemma append_cons (a : ascii) (s1 s2 : string) :
  String a s1 +:+ s2 = String a (s1 +:+ s2).
Proof. reflexivity. Qed.

Lemma string_app_assoc (s1 s2 s3 : string) :
  (s1 +:+ s2) +:+ s3 = s1 +:+ (s2 +:+ s3).
Proof.
  induction s1 as [|a s1 IH]; rewrite ?append_cons, ?append_nil; congruence.
Qed.

Lemma string_length_app (s1 s2 : string) :
  String.length (s1 +:+ s2) = (String.length s1 + String.length s2)%nat.
Proof.
  induction s1 as [|a s1 IH]; rewrite ?append_cons, ?append_nil; cbn;
    congruence.
Qed.

Lemma occurrences_app (c : ascii) (s1 s2 : string) :
  occurrences c (s1 +:+ s2) = (occurrences c s1 + occurrences c s2)%nat.
Proof.
  induction s1 as [|a s1 IH]; rewrite ?append_cons, ?append_nil; cbn;
    [reflexivity|].
  rewrite IH. destruct (Ascii.eqb a c); cbn; reflexivity.
Qed.

Lemma replace_global_app (c : ascii) (r : string) (s1 s2 : string) :
  replace_global c r (s1 +:+ s2)
  = replace_global c r s1 +:+ replace_global c r s2.
Proof.
  induction s1 as [|a s1 IH]; rewrite ?append_cons, ?append_nil; cbn;
    [reflexivity|].
  rewrite IH.
  destruct (Ascii.eqb a c); [by rewrite string_app_assoc|reflexivity].
Qed.

Lemma replace_global_length (c : ascii) (r : string) (s : string) :
  (String.length (replace_global c r s) + occurrences c s
   = String.length s + occurrences c s * String.length r)%nat.
Proof.
  induction s as [|a s IH]; cbn; [reflexivity|].
  destruct (Ascii.eqb a c); cbn; rewrite ?string_length_app; lia.
Qed.

Lemma replace_global_count_other (c d : ascii) (r : string) (s : string) :
  Ascii.eqb d c = false ->
  occurrences d (replace_global c r s)
  = (occurrences d s + occurrences c s * occurrences d r)%nat.
Proof.
  intros Hdc. induction s as [|a s IH]; cbn; [reflexivity|].
  destruct (Ascii.eqb a c) eqn:Hac.
  - apply Ascii.eqb_eq in Hac as ->. rewrite Ascii.eqb_sym, Hdc.
    rewrite occurrences_app, IH. cbn. lia.
  - cbn. rewrite IH. destruct (Ascii.eqb a d); cbn; lia.
Qed.

Lemma replace_global_count_same (c : ascii) (r : string) (s : string) :
  occurrences c (replace_global c r s)
  = (occurrences c s * occurrences c r)%nat.
Proof.
  induction s as [|a s IH]; cbn; [reflexivity|].
  destruct (Ascii.eqb a c) eqn:Hac; cbn.
  - rewrite occurrences_app, IH. lia.
  - by rewrite Hac, IH.
Qed.

Lemma escaped_string (x : value) (s : string) :
  x = Str s ->
  escapeDoubleQuotes x
  = Str (replace_global double_quote
           (String backslash (String double_quote EmptyString)) s)
  /\ escapeSingleQuotes x
     = Str (replace_global single_quote
              (String single_quote (String single_quote EmptyString)) s).
Proof. by intros ->. Qed.

Lemma escaped_other (x : value) :
  as_string x = None ->
  escapeDoubleQuotes x = x /\ escapeSingleQuotes x = x.
Proof. by destruct x. Qed.

(** X11.  Both helpers distribute over concatenation: escaping two strings
    and joining the results is escaping the joined string. *)
Theorem escape_distributes_over_append (s1 s2 : string) :
  (exists a b,
      escapeDoubleQuotes (Str s1) = Str a
      /\ escapeDoubleQuotes (Str s2) = Str b
      /\ escapeDoubleQuotes (Str (s1 +:+ s2)) = Str (a +:+ b))
  /\ (exists a b,
         escapeSingleQuotes (Str s1) = Str a
         /\ escapeSingleQuotes (Str s2) = Str b
         /\ escapeSingleQuotes (Str (s1 +:+ s2)) = Str (a +:+ b)).
Proof.
  split; eexists _, _; (split; [reflexivity|]); (split; [reflexivity|]).
  - destruct (escaped_string _ (s1 +:+ s2) eq_refl) as [-> _].
    by rewrite replace_global_app.
  - destruct (escaped_string _ (s1 +:+ s2) eq_refl) as [_ ->].
    by rewrite replace_global_app.
Qed.

(** X12.  What escaping does to the size and the characters of a string
    with [n] double quotes, resp. [n] single quotes: the result is [n]
    characters longer; [escapeDoubleQuotes] keeps the [n] double quotes and
    adds [n] backslashes to those of the input, which it copies as they are
    (it does not escape a backslash); [escapeSingleQuotes] turns the [n]
    single quotes into [2 n]. *)
Theorem escape_counts (s : string) :
  (exists out,
      escapeDoubleQuotes (Str s) = Str out
      /\ String.length out
         = (String.length s + occurrences double_quote s)%nat
      /\ occurrences double_quote out = occurrences double_quote s
      /\ occurrences backslash out
         = (occurrences backslash s + occurrences double_quote s)%nat)
  /\ (exists out,
         escapeSingleQuotes (Str s) = Str out
         /\ String.length out
            = (String.length s + occurrences single_quote s)%nat
         /\ occurrences single_quote out
            = (2 * occurrences single_quote s)%nat).
Proof.
  split; eexists; (split; [reflexivity|]).
  - pose proof (replace_global_length double_quote
                  (String backslash (String double_quote EmptyString)) s).
    pose proof (replace_global_count_same double_quote
                  (String backslash (String double_quote EmptyString)) s).
    pose proof (replace_global_count_other double_quote backslash
                  (String backslash (String double_quote EmptyString)) s
                  eq_refl).
    cbn in *. repeat split; lia.
  - pose proof (replace_global_length single_quote
                  (String single_quote (String single_quote EmptyString)) s).
    pose proof (replace_global_count_same single_quote
                  (String single_quote (String single_quote EmptyString)) s).
    cbn in *. repeat split; lia.
Qed.

Lemma escaped_double_head (s : string) (a : ascii) (rest : string) :
  replace_global double_quote
    (String backslash (String double_quote EmptyString)) s
  = String a rest ->
  a <> double_quote.
Proof.
  destruct s as [|b s]; cbn; [discriminate|].
  destruct (Ascii.eqb b double_quote) eqn:Hb.
  - rewrite !append_cons, append_nil. intros [= <- _]. discriminate.
  - intros [= <- _]. by apply Ascii.eqb_neq.
Qed.

Lemma escaped_double_inj (s1 s2 : string) :
  replace_global double_quote
    (String backslash (String double_quote EmptyString)) s1
  = replace_global double_quote
      (String backslash (String double_quote EmptyString)) s2 ->
  s1 = s2.
Proof.
  revert s2; induction s1 as [|a1 s1 IH]; intros [|a2 s2]; cbn;
    [reflexivity| | |].
  - destruct (Ascii.eqb a2 double_quote); discriminate.
  - destruct (Ascii.eqb a1 double_quote); discriminate.
  - destruct (Ascii.eqb a1 double_quote) eqn:H1,
             (Ascii.eqb a2 double_quote) eqn:H2;
      rewrite ?append_cons, ?append_nil.
    + apply Ascii.eqb_eq in H1 as ->, H2 as ->.
      intros [= H]. by rewrite (IH s2 H).
    + intros [= _ H]. symmetry in H.
      by destruct (escaped_double_head _ _ _ H).
    + intros [= _ H]. by destruct (escaped_double_head _ _ _ H).
    + intros [= -> H]. by rewrite (IH s2 H).
Qed.

Lemma escaped_single_inj (s1 s2 : string) :
  replace_global single_quote
    (String single_quote (String single_quote EmptyString)) s1
  = replace_global single_quote
      (String single_quote (String single_quote EmptyString)) s2 ->
  s1 = s2.
Proof.
  revert s2; induction s1 as [|a1 s1 IH]; intros [|a2 s2]; cbn;
    [reflexivity| | |].
  - destruct (Ascii.eqb a2 single_quote); discriminate.
  - destruct (Ascii.eqb a1 single_quote); discriminate.
  - destruct (Ascii.eqb a1 single_quote) eqn:H1,
             (Ascii.eqb a2 single_quote) eqn:H2;
      rewrite ?append_cons, ?append_nil.
    + apply Ascii.eqb_eq in H1 as ->, H2 as ->.
      intros [= H]. by rewrite (IH s2 H).
    + intros [= <- _]. discriminate.
    + intros [= -> _]. discriminate.
    + intros [= -> H]. by rewrite (IH s2 H).
Qed.

(** X13.  Neither helper maps two different values to the same result: a
    value can be told from its escaped form. *)
Theorem escape_injective (x y : value) :
  (escapeDoubleQuotes x = escapeDoubleQuotes y -> x = y)
  /\ (escapeSingleQuotes x = escapeSingleQuotes y -> x = y).
Proof.
  split.
  - destruct x, y; cbn; try done. intros [= H].
    by rewrite (escaped_double_inj _ _ H).
  - destruct x, y; cbn; try done. intros [= H].
    by rewrite (escaped_single_inj _ _ H).
Qed.

Lemma escape_injective_witness :
  Str "it's" = Str "it's" /\ Obj 7 = Obj 7.
Proof.
  split.
  - apply (escape_injective (Str "it's") (Str "it's")). reflexivity.
  - apply (proj1 (escape_injective (Obj 7) (Obj 7))). reflexivity.
Defined.

Lemma escaped_double_quote_guarded (s pre post : string) :
  replace_global double_quote
    (String backslash (String double_quote EmptyString)) s
  = pre +:+ String double_quote post ->
  exists pre', pre = pre' +:+ String backslash EmptyString.
Proof.
  revert pre; induction s as [|a s IH]; intros pre; cbn.
  - destruct pre; rewrite ?append_cons, ?append_nil; discriminate.
  - destruct (Ascii.eqb a double_quote) eqn:Ha;
      rewrite ?append_cons, ?append_nil.
    + destruct pre as [|p1 [|p2 pre]]; rewrite ?append_cons, ?append_nil.
      * discriminate.
      * intros [= <- _]. by exists EmptyString.
      * intros [= <- <- H]. destruct (IH pre H) as [pre' ->].
        by exists (String backslash (String double_quote pre')).
    + destruct pre as [|p1 pre]; rewrite ?append_cons, ?append_nil.
      * intros [= -> _]. discriminate.
      * intros [= <- H]. destruct (IH pre H) as [pre' ->].
        by exists (String a pre').
Qed.

(** X14.  In the result of [escapeDoubleQuotes] no double quote stands
    bare: every double quote is preceded by a backslash (in particular the
    result does not begin with a double quote). *)
Theorem escaped_double_quotes_are_guarded (s out pre post : string) :
  escapeDoubleQuotes (Str s) = Str out ->
  out = pre +:+ String double_quote post ->
  exists pre', pre = pre' +:+ String backslash EmptyString.
Proof.
  destruct (escaped_string _ s eq_refl) as [-> _].
  intros [= <-] Hout. by apply (escaped_double_quote_guarded s pre post).
Qed.

Lemma escaped_double_quotes_are_guarded_witness :
  exists pre',
    "say " +:+ String backslash EmptyString
    = pre' +:+ String backslash EmptyString.
Proof.
  apply (escaped_double_quotes_are_guarded
           ("say " +:+ String double_quote "hi")
           ("say " +:+ String backslash (String double_quote "hi"))
           ("say " +:+ String backslash EmptyString) "hi").
  - reflexivity.
  - reflexivity.
Defined.

Lemma replace_global_commute (c1 c2 : ascii) (r1 r2 : string) (s : string) :
  Ascii.eqb c1 c2 = false ->
  replace_global c2 r2 r1 = r1 ->
  replace_global c1 r1 r2 = r2 ->
  replace_global c2 r2 (replace_global c1 r1 s)
  = replace_global c1 r1 (replace_global c2 r2 s).
Proof.
  intros Hc H1 H2. induction s as [|a s IH]; cbn; [reflexivity|].
  destruct (Ascii.eqb a c1) eqn:Ha1, (Ascii.eqb a c2) eqn:Ha2.
  - apply Ascii.eqb_eq in Ha1 as ->, Ha2 as ->.
    by rewrite Ascii.eqb_refl in Hc.
  - rewrite replace_global_app, H1, IH. cbn. by rewrite Ha1.
  - rewrite replace_global_app, H2. cbn. by rewrite Ha2, IH.
  - cbn. by rewrite Ha1, Ha2, IH.
Qed.

Lemma escapes_commute_on_strings (s : string) :
  replace_global single_quote
    (String single_quote (String single_quote EmptyString))
    (replace_global double_quote
       (String backslash (String double_quote EmptyString)) s)
  = replace_global double_quote
      (String backslash (String double_quote EmptyString))
      (replace_global single_quote
         (String single_quote (String single_quote EmptyString)) s).
Proof. by apply replace_global_commute. Qed.

(** X15.  The two helpers can be applied in either order: escaping the
    double quotes and then the single quotes of a value gives the same as
    escaping the single quotes and then the double quotes. *)
Theorem escapes_commute (x : value) :
  escapeSingleQuotes (escapeDoubleQuotes x)
  = escapeDoubleQuotes (escapeSingleQuotes x).
Proof.
  destruct x; try reflexivity.
  change (Str (replace_global single_quote
                 (String single_quote (String single_quote EmptyString))
                 (replace_global double_quote
                    (String backslash (String double_quote EmptyString)) s))
          = Str (replace_global double_quote
                   (String backslash (String double_quote EmptyString))
                   (replace_global single_quote
                      (String single_quote (String single_quote EmptyString))
                      s))).
  by rewrite escapes_commute_on_strings.
Qed.

Lemma escapeDoubleQuotes_Str (s : string) :
  escapeDoubleQuotes (Str s)
  = Str (replace_global double_quote
           (String backslash (String double_quote EmptyString)) s).
Proof. reflexivity. Qed.

Lemma escapeSingleQuotes_Str (s : string) :
  escapeSingleQuotes (Str s)
  = Str (replace_global single_quote
           (String single_quote (String single_quote EmptyString)) s).
Proof. reflexivity. Qed.

(** X16.  Escaping is not idempotent: applying a helper to its own result
    changes it again, unless the string has none of the helper's quotes (in
    which case the helper changes nothing in the first place). *)
Theorem escape_twice (s : string) :
  (escapeDoubleQuotes (escapeDoubleQuotes (Str s))
   = escapeDoubleQuotes (Str s)
   <-> occurrences double_quote s = 0%nat)
  /\ (escapeSingleQuotes (escapeSingleQuotes (Str s))
      = escapeSingleQuotes (Str s)
      <-> occurrences single_quote s = 0%nat).
Proof.
  split; split.
  - rewrite !escapeDoubleQuotes_Str. intros [= H].
    apply escaped_double_inj in H.
    pose proof (replace_global_length double_quote
                  (String backslash (String double_quote EmptyString)) s)
      as Hlen.
    rewrite H in Hlen. cbn in Hlen. lia.
  - intros H. rewrite !escapeDoubleQuotes_Str.
    by rewrite !(replace_global_absent _ _ _ H).
  - rewrite !escapeSingleQuotes_Str. intros [= H].
    apply escaped_single_inj in H.
    pose proof (replace_global_length single_quote
                  (String single_quote (String single_quote EmptyString)) s)
      as Hlen.
    rewrite H in Hlen. cbn in Hlen. lia.
  - intros H. rewrite !escapeSingleQuotes_Str.
    by rewrite !(replace_global_absent _ _ _ H).
Qed.

Lemma escape_twice_witness :
  occurrences single_quote "plain" = 0%nat
  /\ escapeDoubleQuotes (escapeDoubleQuotes (Str "plain"))
     = escapeDoubleQuotes (Str "plain").
Proof.
  split.
  - apply (escape_twice "plain"). reflexivity.
  - apply (escape_twice "plain"). reflexivity.
Defined.
